(** * Snake game: the movement core, snack placement and the collision step

    A shallow embedding of [snake_game/src/models.py] ([Cube], [Snake]),
    [snake_game/src/utils.py] ([random_snack]) and the self-collision step of
    [snake_game/src/game.py] ([main]), with the properties of the
    specification stated over it.

    Grid coordinates and direction components are Python integers, hence [Z].
    The pending-turns dictionary is a finite map from positions to recorded
    directions. The class attribute [Cube.rows] (20 in the repository) is a
    parameter [rows] of every function that reads it, so that statements
    about an N-by-N grid can be made for every N. *)

From Stdlib Require Import ZArith Lia Bool List.
From stdpp Require Import base option list gmap.

Local Open Scope Z_scope.

(** A grid position [(x, y)] and a recorded direction [[dx, dy]]. *)
Abbreviation Pos := (Z * Z)%type.
Abbreviation Dir := (Z * Z)%type.
Abbreviation Color := (Z * Z * Z)%type.

(** ** Drawing

    The external renderer is the list of the calls made to it, in order:
    [surface.fill], [pygame.draw.rect] with its rectangle
    [(x, y, width, height)], [pygame.draw.circle] with its centre and
    radius, and [pygame.display.update]. *)
Inductive DrawCmd : Type :=
| Fill (col : Color)
| Rect (col : Color) (x y width height : Z)
| Circle (col : Color) (cx cy radius : Z)
| Update.

(** ** [class Cube] *)
Module Cube.

Record t : Type := mk {
  pos : Pos;
  dirnx : Z;
  dirny : Z;
  color : Color
}.

(** The class attribute [rows]. *)
Definition rows : Z := 20.

(** [Cube(start)]: the default arguments of [__init__]. *)
Definition init (start : Pos) : t :=
  {| pos := start; dirnx := 1; dirny := 0; color := (255, 0, 0) |}.

(** [Cube.move(dirnx, dirny)]: store the direction, then add it to the
    position. No wrapping happens here. *)
Definition move (c : t) (dx dy : Z) : t :=
  {| pos := (fst (pos c) + dx, snd (pos c) + dy);
     dirnx := dx; dirny := dy; color := color c |}.

(** [c.pos = p] on an existing cube. *)
Definition set_pos (c : t) (p : Pos) : t :=
  {| pos := p; dirnx := dirnx c; dirny := dirny c; color := color c |}.

(** [c.dirnx = dx; c.dirny = dy] on an existing cube. *)
Definition set_dir (c : t) (dx dy : Z) : t :=
  {| pos := pos c; dirnx := dx; dirny := dy; color := color c |}.

Definition x (c : t) : Z := fst (pos c).
Definition y (c : t) : Z := snd (pos c).

(** The class attribute [w]. *)
Definition w : Z := 500.

(** [Cube(start, color=col)]. *)
Definition init_color (start : Pos) (col : Color) : t :=
  {| pos := start; dirnx := 1; dirny := 0; color := col |}.

(** [Cube.draw(surface, eyes)], with the class attributes [w] and [rows]
    as parameters. [//] is floor division, as [Z.div]; with [rows = 0] it
    raises [ZeroDivisionError] before anything is drawn ([None]). *)
Definition draw (w rows : Z) (c : t) (eyes : bool) : option (list DrawCmd) :=
  if rows =? 0 then None else
  let dis := w / rows in
  let i := fst (pos c) in
  let j := snd (pos c) in
  Some (Rect (color c) (i * dis + 1) (j * dis + 1) (dis - 2) (dis - 2) ::
        if eyes then
          let centre := dis / 2 in
          let radius := 3 in
          [Circle (0, 0, 0) (i * dis + centre - radius) (j * dis + 8) radius;
           Circle (0, 0, 0) (i * dis + dis - radius * 2) (j * dis + 8) radius]
        else []).

End Cube.

(** ** Key states

    [handle_input] reads four entries of the key-state object. A lookup that
    raises [KeyError] or [TypeError] is [None]; otherwise the truth value of
    the entry. *)
Inductive Key : Type := K_LEFT | K_RIGHT | K_UP | K_DOWN.

Definition KeyState : Type := Key -> option bool.

(** ** [class Snake] *)
Module Snake.

(** [self.head] and [self.body[0]] are one object: [__init__] and [reset]
    set them together and the body only grows by [append]. The record
    stores that object once, as [head], and the rest of the body after it;
    [body] is the list the source calls [self.body]. *)
Record t : Type := mk {
  color : Color;
  head : Cube.t;
  rest : list Cube.t;
  turns : gmap Pos Dir;
  dirnx : Z;
  dirny : Z
}.

Definition body (s : t) : list Cube.t := head s :: rest s.

(** [Snake(color, pos)]. *)
Definition init (col : Color) (p : Pos) : t :=
  {| color := col; head := Cube.init p; rest := [];
     turns := ∅; dirnx := 0; dirny := 1 |}.

(** The body of each accepted branch of [handle_input]: set the direction
    and record it at the head's cell. *)
Definition turn_to (s : t) (dx dy : Z) : t :=
  {| color := color s; head := head s; rest := rest s;
     turns := <[Cube.pos (head s) := (dx, dy)]> (turns s);
     dirnx := dx; dirny := dy |}.

(** [Snake.handle_input(keys)]. The [if]/[elif] chain reads the keys in the
    order left, right, up, down; a lookup that raises ends the chain in the
    [except] clause, with nothing changed. *)
Definition handle_input (keys : KeyState) (s : t) : t :=
  match keys K_LEFT with
  | None => s
  | Some l =>
    if l && negb (dirnx s =? 1) then turn_to s (-1) 0 else
    match keys K_RIGHT with
    | None => s
    | Some r =>
      if r && negb (dirnx s =? -1) then turn_to s 1 0 else
      match keys K_UP with
      | None => s
      | Some u =>
        if u && negb (dirny s =? 1) then turn_to s 0 (-1) else
        match keys K_DOWN with
        | None => s
        | Some d =>
          if d && negb (dirny s =? -1) then turn_to s 0 1 else s
        end
      end
    end
  end.

Section Move.
(** [c.rows], the grid size. *)
Variable rows : Z.

(** The [elif] chain of [move] for a cube whose cell holds no pending
    turn: wrap at an edge without touching the direction, else one step
    in the cube's own direction. *)
Definition edge_or_forward (c : Cube.t) : Cube.t :=
  if (Cube.dirnx c =? -1) && (Cube.x c <=? 0) then
    Cube.set_pos c (rows - 1, Cube.y c)
  else if (Cube.dirnx c =? 1) && (Cube.x c >=? rows - 1) then
    Cube.set_pos c (0, Cube.y c)
  else if (Cube.dirny c =? 1) && (Cube.y c >=? rows - 1) then
    Cube.set_pos c (Cube.x c, 0)
  else if (Cube.dirny c =? -1) && (Cube.y c <=? 0) then
    Cube.set_pos c (Cube.x c, rows - 1)
  else Cube.move c (Cube.dirnx c) (Cube.dirny c).

(** One iteration of the loop of [move], on cube [c] at index [i] of a
    body of [len] cubes: the new cube and the new pending-turns map. *)
Definition move_cube (len i : nat) (c : Cube.t) (tu : gmap Pos Dir)
  : Cube.t * gmap Pos Dir :=
  let p := Cube.pos c in
  match tu !! p with
  | Some turn =>
    (Cube.move c (fst turn) (snd turn),
     if (i =? len - 1)%nat then delete p tu else tu)
  | None => (edge_or_forward c, tu)
  end.

(** [for i, c in enumerate(...)], from index [i] on. *)
Fixpoint move_loop (len i : nat) (cs : list Cube.t) (tu : gmap Pos Dir)
  : list Cube.t * gmap Pos Dir :=
  match cs with
  | [] => ([], tu)
  | c :: cs' =>
    let '(c', tu1) := move_cube len i c tu in
    let '(cs'', tu2) := move_loop len (S i) cs' tu1 in
    (c' :: cs'', tu2)
  end.

(** [Snake.move()]. *)
Definition move (s : t) : t :=
  let len := length (body s) in
  let '(h, tu1) := move_cube len 0 (head s) (turns s) in
  let '(r, tu2) := move_loop len 1 (rest s) tu1 in
  {| color := color s; head := h; rest := r; turns := tu2;
     dirnx := dirnx s; dirny := dirny s |}.

End Move.

(** [Snake.reset(pos)]. *)
Definition reset (s : t) (p : Pos) : t :=
  {| color := color s; head := Cube.init p; rest := [];
     turns := ∅; dirnx := 0; dirny := 1 |}.

(** [self.body[-1]]. *)
Definition tail (s : t) : Cube.t :=
  match last (rest s) with
  | Some c => c
  | None => head s
  end.

(** [self.body[-1].dirnx = dx; self.body[-1].dirny = dy]. *)
Fixpoint set_last_dir (h : Cube.t) (r : list Cube.t) (dx dy : Z)
  : Cube.t * list Cube.t :=
  match r with
  | [] => (Cube.set_dir h dx dy, [])
  | c :: r' =>
    let '(c', r'') := set_last_dir c r' dx dy in (h, c' :: r'')
  end.

(** The chain of [add_cube]: the cube to append, if any branch matches. *)
Definition new_cube (tl : Cube.t) : option Cube.t :=
  let dx := Cube.dirnx tl in
  let dy := Cube.dirny tl in
  if (dx =? 1) && (dy =? 0) then
    Some (Cube.init (Cube.x tl - 1, Cube.y tl))
  else if (dx =? -1) && (dy =? 0) then
    Some (Cube.init (Cube.x tl + 1, Cube.y tl))
  else if (dx =? 0) && (dy =? 1) then
    Some (Cube.init (Cube.x tl, Cube.y tl - 1))
  else if (dx =? 0) && (dy =? -1) then
    Some (Cube.init (Cube.x tl, Cube.y tl + 1))
  else None.

(** [Snake.add_cube()]. *)
Definition add_cube (s : t) : t :=
  let tl := tail s in
  let dx := Cube.dirnx tl in
  let dy := Cube.dirny tl in
  let r1 := match new_cube tl with
            | Some c => rest s ++ [c]
            | None => rest s
            end in
  let '(h, r2) := set_last_dir (head s) r1 dx dy in
  {| color := color s; head := h; rest := r2; turns := turns s;
     dirnx := dirnx s; dirny := dirny s |}.

(** [for i, c in enumerate(self.body)] of [Snake.draw], from index [i] on:
    the cube at index 0 is drawn with eyes. A cube's [draw] raises before
    it draws, so a raise leaves nothing of that cube behind. *)
Fixpoint draw_from (w rows : Z) (i : nat) (cs : list Cube.t)
  : option (list DrawCmd) :=
  match cs with
  | [] => Some []
  | c :: cs' =>
    match Cube.draw w rows c (i =? 0)%nat with
    | None => None
    | Some d =>
      match draw_from w rows (S i) cs' with
      | None => None
      | Some ds => Some (d ++ ds)
      end
    end
  end.

(** [Snake.draw(surface)]. *)
Definition draw (w rows : Z) (s : t) : option (list DrawCmd) :=
  draw_from w rows 0 (body s).

End Snake.

(** ** Sequences of operations on a snake

    The four state-changing methods of [Snake], as the game loop and the
    tests call them, and the state reached by a sequence of calls. *)
Inductive Op : Type :=
| OInput (keys : KeyState)
| OMove
| OAddCube
| OReset (p : Pos).

Definition apply_op (rows : Z) (s : Snake.t) (o : Op) : Snake.t :=
  match o with
  | OInput keys => Snake.handle_input keys s
  | OMove => Snake.move rows s
  | OAddCube => Snake.add_cube s
  | OReset p => Snake.reset s p
  end.

Definition run (rows : Z) (ops : list Op) (s : Snake.t) : Snake.t :=
  fold_left (apply_op rows) ops s.

(** The key state in which exactly key [k] is held. *)
Definition pressed (k : Key) : KeyState :=
  fun k' =>
    Some match k, k' with
         | K_LEFT, K_LEFT | K_RIGHT, K_RIGHT | K_UP, K_UP | K_DOWN, K_DOWN => true
         | _, _ => false
         end.

(** The key state in which no key is held. *)
Definition released : KeyState := fun _ => Some false.

(** [(x, y)] is a cell of the [rows]-by-[rows] grid. *)
Definition in_grid (rows : Z) (p : Pos) : Prop :=
  0 <= fst p < rows /\ 0 <= snd p < rows.

(** ** The self-collision step of the game loop ([game.py], [main]) *)
Module Game.

(** The start position the loop resets to. *)
Definition start : Pos := (10, 10).

(** What one pass of the collision loop leaves behind: the snake, the
    scores shown by [message_box] (one per alert raised) and the indices
    [x] whose test was evaluated, in order. *)
Record outcome : Type := mk {
  snake : Snake.t;
  alerts : list nat;
  checked : list nat
}.

(** [snake.body[x].pos in [cube.pos for cube in snake.body[x + 1:]]]. *)
Definition hits_later (body : list Cube.t) (x : nat) : bool :=
  match body !! x with
  | Some c => bool_decide (Cube.pos c ∈ map Cube.pos (drop (S x) body))
  | None => false
  end.

(** [for x in range(len(snake.body)): if ...: ...; break], over the
    remaining indices [xs]; [seen] are the indices already tested. *)
Fixpoint collision_loop (s : Snake.t) (seen xs : list nat) : outcome :=
  match xs with
  | [] => {| snake := s; alerts := []; checked := seen |}
  | x :: xs' =>
    if hits_later (Snake.body s) x then
      let score := length (Snake.body s) in
      {| snake := Snake.reset s start; alerts := [score];
         checked := seen ++ [x] |}
    else collision_loop s (seen ++ [x]) xs'
  end.

Definition self_collision (s : Snake.t) : outcome :=
  collision_loop s [] (seq 0 (length (Snake.body s))).

End Game.

(** ** [random_snack] ([utils.py])

    [secrets.randbelow] is the environment: its results are a stream
    [draws], consumed one element per call. Its contract is a result in
    [[0, rows)] ([draws_below]) for a positive argument and [ValueError]
    otherwise. The [while True] loop runs on fuel, one unit per iteration. *)
Module Utils.

(** How a run of [random_snack] ends: it returns a cell, [randbelow]
    raises, or the loop is still running when the fuel is used up. *)
Inductive result : Type :=
| Returned (p : Pos)
| Raised
| Running.

Definition draws_below (rows : Z) (draws : nat -> Z) : Prop :=
  forall k, 0 <= draws k < rows.

(** The loop test: some cube of [positions] sits at [(x, y)]. *)
Definition overlaps (positions : list Cube.t) (p : Pos) : bool :=
  (0 <? length (filter (fun c => Cube.pos c = p) positions))%nat.

(** The loop of [random_snack], entered with [k] draws already consumed. *)
Fixpoint random_snack_from (fuel : nat) (rows : Z) (positions : list Cube.t)
    (draws : nat -> Z) (k : nat) : result :=
  match fuel with
  | O => Running
  | S fuel' =>
    if rows <=? 0 then Raised else
    let x := draws k in
    let y := draws (S k) in
    if overlaps positions (x, y)
    then random_snack_from fuel' rows positions draws (S (S k))
    else Returned (x, y)
  end.

(** [random_snack(rows, snake)]. *)
Definition random_snack (fuel : nat) (rows : Z) (snake : Snake.t)
    (draws : nat -> Z) : result :=
  random_snack_from fuel rows (Snake.body snake) draws 0.

(** The cell drawn in iteration [i] of the loop. *)
Definition drawn (draws : nat -> Z) (i : nat) : Pos :=
  (draws (2 * i)%nat, draws (S (2 * i))).

(** The loop of [draw_grid]: [n] rounds of [x += sizebtwn; y += sizebtwn]. *)
Fixpoint grid_loop (n : nat) (sizebtwn x y : Z) : Z * Z :=
  match n with
  | O => (x, y)
  | S n' => grid_loop n' sizebtwn (x + sizebtwn) (y + sizebtwn)
  end.

(** [draw_grid(w, rows)]: [w // rows] raises for [rows = 0]; the loop runs
    [range(rows)] times and only advances two local counters. The result
    is what was drawn, with the counters the loop ended on. *)
Definition draw_grid (w rows : Z) : option (list DrawCmd * (Z * Z)) :=
  if rows =? 0 then None else
  let sizebtwn := w / rows in
  Some ([], grid_loop (Z.to_nat rows) sizebtwn 0 0).

(** [redraw_window(surface, snake, snack, width, rows)]. The cubes are
    drawn with the class attributes [cw], [crows] of [Cube]; the grid with
    the arguments [width], [rows]. A raise ([None]) ends the frame. *)
Definition redraw_window (cw crows : Z) (snake : Snake.t) (snack : Cube.t)
    (width rows : Z) : option (list DrawCmd) :=
  match Snake.draw cw crows snake with
  | None => None
  | Some ds =>
    match Cube.draw cw crows snack false with
    | None => None
    | Some dk =>
      match draw_grid width rows with
      | None => None
      | Some (dg, _) => Some (Fill (0, 0, 0) :: ds ++ dk ++ dg ++ [Update])
      end
    end
  end.

End Utils.

(** ** The game loop ([game.py], [main])

    One iteration of [while running] reads from the environment the events
    of [pygame.event.get()], the key state and, when the snack is eaten, the
    draws of [random_snack]. The delay and the clock tick change no state.
    Its effects are the scores shown by [message_box] and the frame drawn
    by [redraw_window]. *)
Module Main.

Inductive Event : Type := QUIT | OTHER.

Record input : Type := mk_input {
  events : list Event;
  keys : KeyState;
  draws : nat -> Z
}.

Record state : Type := mk_state {
  snake : Snake.t;
  snack : Cube.t;
  running : bool
}.

(** How one iteration ends: with a new state, the alerts raised and the
    frame drawn; with an exception, after the alerts raised before it; or
    inside [random_snack], whose loop has not returned within the fuel. *)
Inductive step : Type :=
| Stepped (st : state) (alerts : list nat) (frame : list DrawCmd)
| StepRaised (alerts : list nat)
| StepDiverged.

Section Loop.
(** The class attributes [Cube.w], [Cube.rows], the locals [width],
    [rows] of [main], and the fuel given to each call of [random_snack]. *)
Variables (cw crows width rows : Z) (fuel : nat).

(** [for event in pygame.event.get(): if event.type == pygame.QUIT:
    running = False]. *)
Definition poll_quit (evs : list Event) (running0 : bool) : bool :=
  fold_left (fun r e => match e with QUIT => false | OTHER => r end) evs running0.

(** The body of [while running]. *)
Definition loop_body (inp : input) (st : state) : step :=
  let running1 := poll_quit (events inp) (running st) in
  let s1 := Snake.handle_input (keys inp) (snake st) in
  let s2 := Snake.move crows s1 in
  let eaten :=
    if bool_decide (Cube.pos (Snake.head s2) = Cube.pos (snack st)) then
      let s3 := Snake.add_cube s2 in
      match Utils.random_snack fuel rows s3 (draws inp) with
      | Utils.Returned p => inl (s3, Cube.init_color p (0, 255, 0))
      | Utils.Raised => inr (StepRaised [])
      | Utils.Running => inr StepDiverged
      end
    else inl (s2, snack st) in
  match eaten with
  | inr failure => failure
  | inl (s3, snack1) =>
    let out := Game.self_collision s3 in
    match Utils.redraw_window cw crows (Game.snake out) snack1 width rows with
    | None => StepRaised (Game.alerts out)
    | Some frame =>
      Stepped {| snake := Game.snake out; snack := snack1; running := running1 |}
              (Game.alerts out) frame
    end
  end.

(** How a run over the inputs of finitely many iterations ends: the loop
    was left (then [pygame.quit()]), an iteration raised or hung, or the
    inputs are used up with the loop still running. In each case with the
    alerts and frames produced so far. *)
Inductive run : Type :=
| Left (st : state) (alerts : list nat) (frames : list (list DrawCmd))
| RunRaised (alerts : list nat) (frames : list (list DrawCmd))
| RunDiverged (alerts : list nat) (frames : list (list DrawCmd))
| Pending (st : state) (alerts : list nat) (frames : list (list DrawCmd)).

(** [while running: ...], one element of [inputs] per iteration. *)
Fixpoint main_loop (inputs : list input) (st : state)
    (alerts : list nat) (frames : list (list DrawCmd)) : run :=
  if running st then
    match inputs with
    | [] => Pending st alerts frames
    | inp :: inputs' =>
      match loop_body inp st with
      | Stepped st' al frame =>
        main_loop inputs' st' (alerts ++ al) (frames ++ [frame])
      | StepRaised al => RunRaised (alerts ++ al) frames
      | StepDiverged => RunDiverged alerts frames
      end
    end
  else Left st alerts frames.

(** [main()] up to the loop: the snake at (10,10), the first snack drawn
    with [draws0], then the loop. *)
Definition main (draws0 : nat -> Z) (inputs : list input) : run :=
  let snake0 := Snake.init (255, 0, 0) (10, 10) in
  match Utils.random_snack fuel rows snake0 draws0 with
  | Utils.Returned p =>
    main_loop inputs
      {| snake := snake0; snack := Cube.init_color p (0, 255, 0); running := true |}
      [] []
  | Utils.Raised => RunRaised [] []
  | Utils.Running => RunDiverged [] []
  end.

End Loop.

End Main.

(** * Vocabulary of the properties and the snakes they are tried on *)

(** What [move] does to one cube, given the pending-turns map. *)
Definition cube_step (rows : Z) (tu : gmap Pos Dir) (c : Cube.t) : Cube.t :=
  match tu !! Cube.pos c with
  | Some turn => Cube.move c (fst turn) (snd turn)
  | None => Snake.edge_or_forward rows c
  end.

(** The pending-turns map once the cube [tl] has been processed as the tail. *)
Definition consume (tu : gmap Pos Dir) (tl : Cube.t) : gmap Pos Dir :=
  match tu !! Cube.pos tl with
  | Some _ => delete (Cube.pos tl) tu
  | None => tu
  end.

(** The four directions the snake's own methods ever store. *)
Definition axis_unit (d : Dir) : Prop :=
  d = (1, 0) \/ d = (-1, 0) \/ d = (0, 1) \/ d = (0, -1).

Definition cube_dir (c : Cube.t) : Dir := (Cube.dirnx c, Cube.dirny c).

(** The direction each key asks for, as the branches of [handle_input]
    assign it. *)
Definition requested (k : Key) : Dir :=
  match k with
  | K_LEFT => (-1, 0)
  | K_RIGHT => (1, 0)
  | K_UP => (0, -1)
  | K_DOWN => (0, 1)
  end.

(** What one tick of the game loop does to the snake before the snack and
    collision tests: read the keys, then move. *)
Definition tick (keys : KeyState) : list Op := [OInput keys; OMove].

(** A game that starts at (10,10) on the 20-by-20 grid: turn left, run to
    the left edge with no key held, turn up, then turn left again on the
    edge column. *)
Definition edge_turn_ops : list Op :=
  tick (pressed K_LEFT) ++ concat (repeat (tick released) 9) ++
  tick (pressed K_UP) ++ tick (pressed K_LEFT).

(** A snake of one cube at the bottom left corner whose stored direction
    has both components set. *)
Definition corner_snake : Snake.t :=
  {| Snake.color := (255, 0, 0);
     Snake.head := Cube.mk (0, 19) (-1) 1 (255, 0, 0);
     Snake.rest := []; Snake.turns := ∅;
     Snake.dirnx := 0; Snake.dirny := 1 |}.

(** Four cubes about to cross the four edges of the 20-by-20 grid. *)
Definition edge_snake : Snake.t :=
  {| Snake.color := (255, 0, 0);
     Snake.head := Cube.mk (0, 10) (-1) 0 (255, 0, 0);
     Snake.rest := [Cube.mk (19, 5) 1 0 (255, 0, 0);
                    Cube.mk (7, 19) 0 1 (255, 0, 0);
                    Cube.mk (3, 0) 0 (-1) (255, 0, 0)];
     Snake.turns := ∅; Snake.dirnx := 0; Snake.dirny := 1 |}.

(** A snake of one cube that stands still: its stored direction is (0,0). *)
Definition still_snake : Snake.t :=
  {| Snake.color := (255, 0, 0);
     Snake.head := Cube.mk (5, 5) 0 0 (255, 0, 0);
     Snake.rest := []; Snake.turns := ∅;
     Snake.dirnx := 0; Snake.dirny := 1 |}.

(** The cube at index [i] shares its cell with a cube strictly after it. *)
Definition collides_at (body : list Cube.t) (i : nat) : Prop :=
  exists c j c', body !! i = Some c /\ (i < j)%nat /\
                 body !! j = Some c' /\ Cube.pos c' = Cube.pos c.

(** The body of the repository's collision test: segments 0 and 2 share a
    cell, segment 1 is elsewhere; a fourth cube on segment 1's cell makes a
    second colliding pair. *)
Definition crossed_snake : Snake.t :=
  {| Snake.color := (255, 0, 0);
     Snake.head := Cube.init (5, 5);
     Snake.rest := [Cube.init (5, 6); Cube.init (5, 5); Cube.init (5, 6)];
     Snake.turns := {[ (5, 5) := (0, 1) ]};
     Snake.dirnx := -1; Snake.dirny := 0 |}.

(** [p] is the position of some cube of [positions]. *)
Definition occupied (positions : list Cube.t) (p : Pos) : Prop :=
  exists c, c ∈ positions /\ Cube.pos c = p.

(** The 2-by-2 grid of the repository's edge-case test: three cells taken,
    (1,1) free; the environment draws (0,0) first and (1,1) next. *)
Definition corner_body_snake : Snake.t :=
  {| Snake.color := (255, 0, 0);
     Snake.head := Cube.init (0, 0);
     Snake.rest := [Cube.init (0, 1); Cube.init (1, 0)];
     Snake.turns := ∅; Snake.dirnx := 0; Snake.dirny := 1 |}.

Definition zeros_then_ones : nat -> Z :=
  fun k => if (k <? 2)%nat then 0 else 1.

(** One cube on the 1-by-1 grid: no cell is free. *)
Definition full_snake : Snake.t := Snake.init (255, 0, 0) (0, 0).

(** [k] moves of a cube that meets no pending turn. *)
Definition free_run (rows : Z) (k : nat) (c : Cube.t) : Cube.t :=
  Nat.iter k (Snake.edge_or_forward rows) c.

(** [k] calls of [Snake.move]. *)
Definition moves (rows : Z) (k : nat) (s : Snake.t) : Snake.t :=
  Nat.iter k (Snake.move rows) s.

(** The body trails the head towards cell [p]: left to its own stored
    direction, the segment at index [i] first stands on [p] after exactly
    [i] moves. *)
Definition trails (rows : Z) (p : Pos) (body : list Cube.t) : Prop :=
  forall (i : nat) c, body !! i = Some c ->
    Cube.pos (free_run rows i c) = p /\
    forall j, (j < i)%nat -> Cube.pos (free_run rows j c) <> p.

(** The state after [k] moves of a snake that started with body [b0] and
    the single pending turn [d] at [p]: the segments before index [k] have
    turned, the others have run freely for [k] moves, and the entry is
    still pending while [k] is less than the length. *)
Definition propagated (rows : Z) (p : Pos) (d : Dir)
    (b0 : list Cube.t) (k : nat) (s : Snake.t) : Prop :=
  length (Snake.body s) = length b0 /\
  (forall (i : nat) c0, b0 !! i = Some c0 -> (k <= i)%nat ->
     Snake.body s !! i = Some (free_run rows k c0)) /\
  (forall (i : nat) c, Snake.body s !! i = Some c -> (i < k)%nat -> cube_dir c = d) /\
  Snake.turns s = (if (k <? length b0)%nat then {[ p := d ]} else ∅).

(** The lap: on the 20-by-20 grid a snake grown to 21 cubes runs one full
    row, so that its head is back on the cell where its tail stands, and a
    turn is recorded there. Every state is reached through the snake's own
    methods. *)
Definition lap_snake : Snake.t :=
  run 20 (repeat OAddCube 20 ++ repeat OMove 20 ++ [OInput (pressed K_DOWN)])
      (Snake.init (255, 0, 0) (0, 0)).

(** A body assembled by hand, as the tests do: the second cube is two
    cells behind the head. *)
Definition gap_snake : Snake.t :=
  {| Snake.color := (255, 0, 0);
     Snake.head := Cube.init (5, 5);
     Snake.rest := [Cube.init (3, 5)];
     Snake.turns := {[ (5, 5) := (0, -1) ]};
     Snake.dirnx := 0; Snake.dirny := -1 |}.

(** Three cubes in a row heading right, grown and turned through the
    snake's own methods: the head at (10,10) with the turn (0,1) recorded
    under it. *)
Definition straight_snake : Snake.t :=
  run 20 [OAddCube; OAddCube; OInput (pressed K_DOWN)]
      (Snake.init (255, 0, 0) (10, 10)).

(** All cells of the [rows]-by-[rows] grid, column by column. *)
Definition cells (rows : Z) : list Pos :=
  flat_map (fun x => map (fun y => (x, y)) (seqZ 0 rows)) (seqZ 0 rows).

(** Every outcome of the draws of [k] iterations: one cell per iteration. *)
Fixpoint outcomes (rows : Z) (k : nat) : list (list Pos) :=
  match k with
  | O => [[]]
  | S k' => flat_map (fun c => map (cons c) (outcomes rows k')) (cells rows)
  end.

(** A draw stream whose iteration [i] draws the cell at index [i] of [l]. *)
Definition stream_of (l : list Pos) : nat -> Z :=
  fun k =>
    match l !! Nat.div2 k with
    | Some (x, y) => if Nat.even k then x else y
    | None => 0
    end.

(** How many elements of [l] pass the test [f]. *)
Fixpoint countb {A : Type} (f : A -> bool) (l : list A) : nat :=
  match l with
  | [] => 0
  | a :: l' => (if f a then 1 else 0) + countb f l'
  end.

(** [random_snack] has not returned within [k] iterations on the draws [l]. *)
Definition still_running (k : nat) (rows : Z) (snake : Snake.t) (l : list Pos) : bool :=
  match Utils.random_snack k rows snake (stream_of l) with
  | Utils.Running => true
  | _ => false
  end.

(** A fresh snake, or a state reached from one by one more call. *)
Inductive reachable (rows : Z) : Snake.t -> Prop :=
| reachable_init col p : reachable rows (Snake.init col p)
| reachable_op s o : reachable rows s -> reachable rows (apply_op rows s o).

(** Every cube of the body and every pending turn stores one of the four
    axis directions. *)
Definition well_directed (s : Snake.t) : Prop :=
  Forall (fun c => axis_unit (cube_dir c)) (Snake.body s) /\
  map_Forall (fun _ d => axis_unit d) (Snake.turns s).

(** Three cubes in a row heading right, with no pending turn. *)
Definition row_of_three : Snake.t :=
  run 20 [OAddCube; OAddCube] (Snake.init (255, 0, 0) (10, 10)).

(** The guard of each branch of [handle_input]. *)
Definition accepts (s : Snake.t) (k : Key) : bool :=
  match k with
  | K_LEFT => negb (Snake.dirnx s =? 1)
  | K_RIGHT => negb (Snake.dirnx s =? -1)
  | K_UP => negb (Snake.dirny s =? 1)
  | K_DOWN => negb (Snake.dirny s =? -1)
  end.

(** The place of each key in the [if]/[elif] chain of [handle_input]. *)
Definition key_rank (k : Key) : nat :=
  match k with
  | K_LEFT => 0
  | K_RIGHT => 1
  | K_UP => 2
  | K_DOWN => 3
  end.

(** The square [Cube.draw] paints for a cube, and the two eyes it adds
    for the head. *)
Definition square (w rows : Z) (c : Cube.t) : DrawCmd :=
  Rect (Cube.color c) (Cube.x c * (w / rows) + 1) (Cube.y c * (w / rows) + 1)
       (w / rows - 2) (w / rows - 2).

Definition eyes_of (w rows : Z) (c : Cube.t) : list DrawCmd :=
  [Circle (0, 0, 0) (Cube.x c * (w / rows) + (w / rows) / 2 - 3)
          (Cube.y c * (w / rows) + 8) 3;
   Circle (0, 0, 0) (Cube.x c * (w / rows) + w / rows - 3 * 2)
          (Cube.y c * (w / rows) + 8) 3].

(** The snake as it stands in an iteration of the game loop after the
    keys are handled and the snake has moved, before the snack test. *)
Definition moved (crows : Z) (inp : Main.input) (st : Main.state) : Snake.t :=
  Snake.move crows (Snake.handle_input (Main.keys inp) (Main.snake st)).

(** An iteration of the game on the 20-by-20 grid in which the fresh snake
    moves onto the snack at (11,10); no key is held, no event is pending,
    and the environment draws the cell (3,3). *)
Definition demo_state : Main.state :=
  {| Main.snake := Snake.init (255, 0, 0) (10, 10);
     Main.snack := Cube.init_color (11, 10) (0, 255, 0);
     Main.running := true |}.

Definition demo_input : Main.input :=
  {| Main.events := []; Main.keys := released; Main.draws := fun _ => 3 |}.

(** The state that iteration ends in: two segments, the snack at (3,3). *)
Definition demo_after : Main.state :=
  {| Main.snake :=
       {| Snake.color := (255, 0, 0);
          Snake.head := Cube.mk (11, 10) 1 0 (255, 0, 0);
          Snake.rest := [Cube.mk (10, 10) 1 0 (255, 0, 0)];
          Snake.turns := ∅; Snake.dirnx := 0; Snake.dirny := 1 |};
     Main.snack := Cube.init_color (3, 3) (0, 255, 0);
     Main.running := true |}.

(** The frame drawn at its end. *)
Definition demo_frame : list DrawCmd :=
  [Fill (0, 0, 0);
   Rect (255, 0, 0) 276 251 23 23;
   Circle (0, 0, 0) 284 258 3; Circle (0, 0, 0) 294 258 3;
   Rect (255, 0, 0) 251 251 23 23;
   Rect (0, 255, 0) 76 76 23 23;
   Update].

(** The same input with the window being closed. *)
Definition quit_input : Main.input :=
  {| Main.events := [Main.OTHER; Main.QUIT]; Main.keys := released;
     Main.draws := fun _ => 3 |}.

(** The window is the square of the pixels [(px, py)] with
    [0 <= px < w] and [0 <= py < w]. A rectangle covers the pixels from its
    corner over its width and height, a circle at most the pixels within
    its radius of the centre on each axis. A command lies outside the window
    when that area is off one side of it; [Fill] and [Update] act on the
    whole window. *)
Definition outside_window (w : Z) (cmd : DrawCmd) : Prop :=
  match cmd with
  | Rect _ x y width height =>
    0 <= width /\ 0 <= height /\
    (x + width < 0 \/ w < x \/ y + height < 0 \/ w < y)
  | Circle _ cx cy radius =>
    0 <= radius /\
    (cx + radius < 0 \/ w < cx - radius \/ cy + radius < 0 \/ w < cy - radius)
  | Fill _ | Update => False
  end.

(** * Properties *)

(** ** The loop of [move], cube by cube *)

Lemma move_cube_fst rows len i c tu :
  fst (Snake.move_cube rows len i c tu) = cube_step rows tu c.
Proof. unfold Snake.move_cube, cube_step. by destruct (tu !! Cube.pos c). Qed.

Lemma move_cube_inner rows len i c tu :
  (i ≠ len - 1)%nat -> snd (Snake.move_cube rows len i c tu) = tu.
Proof.
  intros Hi. unfold Snake.move_cube.
  destruct (tu !! Cube.pos c); [|done]. simpl.
  destruct (Nat.eqb_spec i (len - 1)); [lia | done].
Qed.

Lemma move_cube_last rows len i c tu :
  (i = len - 1)%nat -> snd (Snake.move_cube rows len i c tu) = consume tu c.
Proof.
  intros Hi. unfold Snake.move_cube, consume.
  destruct (tu !! Cube.pos c); [|done]. simpl.
  destruct (Nat.eqb_spec i (len - 1)); [done | lia].
Qed.

(** Only the last iteration can change the map, so every cube of the body
    is moved against the map the call started with. *)
Lemma move_loop_spec rows len cs : forall i tu,
  (i + length cs = len)%nat ->
  Snake.move_loop rows len i cs tu =
    (map (cube_step rows tu) cs,
     match last cs with Some tl => consume tu tl | None => tu end).
Proof.
  induction cs as [|c cs IH]; intros i tu Hlen; [done|].
  cbn [Snake.move_loop map].
  destruct (Snake.move_cube rows len i c tu) as [c' tu1] eqn:E.
  pose proof (move_cube_fst rows len i c tu) as Hc. rewrite E in Hc. simpl in Hc.
  destruct cs as [|c2 cs].
  - simpl. f_equal; [by rewrite Hc|].
    pose proof (move_cube_last rows len i c tu) as Ht. rewrite E in Ht.
    simpl in *. apply Ht. lia.
  - pose proof (move_cube_inner rows len i c tu) as Ht. rewrite E in Ht.
    simpl in Ht. rewrite Ht by (simpl in Hlen; lia).
    rewrite IH by (simpl in *; lia).
    rewrite Hc. by rewrite last_cons_cons.
Qed.

Lemma tail_last s : last (Snake.body s) = Some (Snake.tail s).
Proof.
  unfold Snake.body, Snake.tail. rewrite last_cons.
  by destruct (last (Snake.rest s)).
Qed.

Lemma body_move rows s :
  Snake.body (Snake.move rows s) = map (cube_step rows (Snake.turns s)) (Snake.body s).
Proof.
  pose proof (move_loop_spec rows (length (Snake.body s)) (Snake.body s) 0
                (Snake.turns s) eq_refl) as H.
  unfold Snake.move, Snake.body in *. cbn [Snake.move_loop] in H.
  destruct (Snake.move_cube rows _ 0 (Snake.head s) (Snake.turns s)) as [h tu1].
  destruct (Snake.move_loop rows _ 1 (Snake.rest s) tu1) as [r tu2].
  simpl. by inversion H.
Qed.

Lemma turns_move rows s :
  Snake.turns (Snake.move rows s) = consume (Snake.turns s) (Snake.tail s).
Proof.
  pose proof (move_loop_spec rows (length (Snake.body s)) (Snake.body s) 0
                (Snake.turns s) eq_refl) as H.
  rewrite tail_last in H.
  unfold Snake.move, Snake.body in *. cbn [Snake.move_loop] in H.
  destruct (Snake.move_cube rows _ 0 (Snake.head s) (Snake.turns s)) as [h tu1].
  destruct (Snake.move_loop rows _ 1 (Snake.rest s) tu1) as [r tu2].
  simpl. by inversion H.
Qed.

Lemma length_body_move rows s :
  length (Snake.body (Snake.move rows s)) = length (Snake.body s).
Proof. by rewrite body_move, length_map. Qed.

Lemma lookup_body_move rows s (i : nat) :
  Snake.body (Snake.move rows s) !! i =
  cube_step rows (Snake.turns s) <$> Snake.body s !! i.
Proof. by rewrite body_move, list_lookup_fmap. Qed.

(** ** A fresh snake and its first move *)

(** C1 (the code departs from the claim): a fresh snake at (10,10) has
    snake direction (0,1), but its head cube is built with the default
    direction (1,0) of [Cube], and [move] follows the cube: after one
    [move] with no input the head is at (11,10), not at (10,11). *)
Theorem fresh_snake_first_move (col : Color) :
  let s := Snake.init col (10, 10) in
  length (Snake.body s) = 1%nat /\
  (Snake.dirnx s, Snake.dirny s) = (0, 1) /\
  Cube.pos (Snake.head (Snake.move Cube.rows s)) = (11, 10).
Proof. repeat split. Qed.

(** The guard of [handle_input] reads the snake direction (0,1), not the
    head's stored direction (1,0). On the fresh snake the left key, the
    reverse of the head's own motion, is accepted and the next move takes
    the head to (9,10); the up key is refused. *)
Lemma fresh_snake_guard_reads_snake_direction (col : Color) :
  Cube.pos (Snake.head
    (run Cube.rows (tick (pressed K_LEFT)) (Snake.init col (10, 10)))) = (9, 10) /\
  Snake.handle_input (pressed K_UP) (Snake.init col (10, 10)) =
    Snake.init col (10, 10).
Proof. split; reflexivity. Qed.

(** ** Positions after a move *)

(** C2 (the code departs from the claim): the branch of [move] that applies
    a pending turn does not wrap. A fresh snake on the left edge that turns
    left is at x = -1 after the move, and so is the snake of a game started
    at (10,10) that turns left on the edge column. *)
Theorem turn_at_edge_leaves_grid (col : Color) :
  Cube.pos (Snake.head
    (run 20 [OInput (pressed K_LEFT); OMove] (Snake.init col (0, 5)))) = (-1, 5) /\
  Cube.pos (Snake.head (run 20 edge_turn_ops (Snake.init col (10, 10)))) = (-1, 9).
Proof. split; vm_compute; reflexivity. Qed.

(** ** Edge wrap *)

Lemma edge_or_forward_dir rows c :
  cube_dir (Snake.edge_or_forward rows c) = cube_dir c.
Proof.
  unfold Snake.edge_or_forward.
  repeat match goal with |- context [if ?b then _ else _] => destruct b end;
    reflexivity.
Qed.

(** The wrap tests of [move] form one if/elif chain with the x cases first.
    For a segment whose cell holds no pending turn, [move] wraps x for
    [dirnx = -1] at [x <= 0] and for [dirnx = 1] at [x >= N-1]; when neither
    x case applies it wraps y for [dirny = 1] at [y >= N-1] and for
    [dirny = -1] at [y <= 0]. In each of the four cases only that coordinate
    changes. *)
Lemma move_wraps_in_chain_order rows s (i : nat) c :
  Snake.body s !! i = Some c ->
  Snake.turns s !! Cube.pos c = None ->
  let c' := Snake.body (Snake.move rows s) !! i in
  let no_x_wrap := ~ (Cube.dirnx c = -1 /\ Cube.x c <= 0) /\
                   ~ (Cube.dirnx c = 1 /\ Cube.x c >= rows - 1) in
  (Cube.dirnx c = -1 -> Cube.x c <= 0 ->
     c' = Some (Cube.set_pos c (rows - 1, Cube.y c))) /\
  (Cube.dirnx c = 1 -> Cube.x c >= rows - 1 ->
     c' = Some (Cube.set_pos c (0, Cube.y c))) /\
  (no_x_wrap -> Cube.dirny c = 1 -> Cube.y c >= rows - 1 ->
     c' = Some (Cube.set_pos c (Cube.x c, 0))) /\
  (no_x_wrap -> Cube.dirny c = -1 -> Cube.y c <= 0 ->
     c' = Some (Cube.set_pos c (Cube.x c, rows - 1))).
Proof.
  intros Hi Htu. cbv zeta.
  rewrite lookup_body_move, Hi. simpl.
  unfold cube_step. rewrite Htu. unfold Snake.edge_or_forward.
  repeat split.
  - intros Hd Hx.
    destruct (Z.eqb_spec (Cube.dirnx c) (-1)); [|lia].
    destruct (Z.leb_spec (Cube.x c) 0); [done | lia].
  - intros Hd Hx.
    destruct (Z.eqb_spec (Cube.dirnx c) (-1)); [lia|].
    destruct (Z.eqb_spec (Cube.dirnx c) 1); [|lia]. simpl.
    destruct (Z.geb_spec (Cube.x c) (rows - 1)); [done | lia].
  - intros [H1 H2] Hd Hy.
    destruct (Z.eqb_spec (Cube.dirnx c) (-1)), (Z.leb_spec (Cube.x c) 0);
      simpl; try lia;
      destruct (Z.eqb_spec (Cube.dirnx c) 1), (Z.geb_spec (Cube.x c) (rows - 1));
      simpl; try lia;
      destruct (Z.eqb_spec (Cube.dirny c) 1), (Z.geb_spec (Cube.y c) (rows - 1));
      simpl; try lia; done.
  - intros [H1 H2] Hd Hy.
    destruct (Z.eqb_spec (Cube.dirnx c) (-1)), (Z.leb_spec (Cube.x c) 0);
      simpl; try lia;
      destruct (Z.eqb_spec (Cube.dirnx c) 1), (Z.geb_spec (Cube.x c) (rows - 1));
      simpl; try lia;
      destruct (Z.eqb_spec (Cube.dirny c) 1); simpl; try lia;
      destruct (Z.eqb_spec (Cube.dirny c) (-1)), (Z.leb_spec (Cube.y c) 0);
      simpl; try lia; done.
Qed.

(** The order of the chain shows only on a direction with both components
    set, which no method of the snake stores: the cube at (0,19) with
    direction (-1,1) on the 20-by-20 grid takes the x case and goes to
    (19,19). *)
Lemma two_component_direction_takes_x_case :
  Cube.pos <$> Snake.body (Snake.move 20 corner_snake) !! 0%nat = Some (19, 19).
Proof. reflexivity. Qed.

(** C4: a segment stores a direction with at most one component non-zero.
    For every such segment whose cell holds no pending turn, [move] wraps it
    at the grid edges: with [dirnx = -1] at [x <= 0] it is set to [x = N-1],
    with [dirnx = 1] at [x >= N-1] to [x = 0], with [dirny = 1] at
    [y >= N-1] to [y = 0] and with [dirny = -1] at [y <= 0] to [y = N-1].
    In each of the four cases only that coordinate changes: the stored
    direction (and the other coordinate and the colour) are as before. *)
Theorem move_wraps_at_edges rows s (i : nat) c :
  Snake.body s !! i = Some c ->
  Snake.turns s !! Cube.pos c = None ->
  Cube.dirnx c = 0 \/ Cube.dirny c = 0 ->
  let c' := Snake.body (Snake.move rows s) !! i in
  (Cube.dirnx c = -1 -> Cube.x c <= 0 ->
     c' = Some (Cube.set_pos c (rows - 1, Cube.y c)) /\
     cube_dir (Cube.set_pos c (rows - 1, Cube.y c)) = cube_dir c) /\
  (Cube.dirnx c = 1 -> Cube.x c >= rows - 1 ->
     c' = Some (Cube.set_pos c (0, Cube.y c)) /\
     cube_dir (Cube.set_pos c (0, Cube.y c)) = cube_dir c) /\
  (Cube.dirny c = 1 -> Cube.y c >= rows - 1 ->
     c' = Some (Cube.set_pos c (Cube.x c, 0)) /\
     cube_dir (Cube.set_pos c (Cube.x c, 0)) = cube_dir c) /\
  (Cube.dirny c = -1 -> Cube.y c <= 0 ->
     c' = Some (Cube.set_pos c (Cube.x c, rows - 1)) /\
     cube_dir (Cube.set_pos c (Cube.x c, rows - 1)) = cube_dir c).
Proof.
  intros Hi Htu Hax. cbv zeta.
  destruct (move_wraps_in_chain_order rows s i c Hi Htu) as (Hl & Hr & Hd & Hu).
  repeat split; try reflexivity.
  - by apply Hl.
  - by apply Hr.
  - apply Hd; [split; lia | done | done].
  - apply Hu; [split; lia | done | done].
Qed.

Lemma move_wraps_at_edges_witness :
  Snake.body (Snake.move 20 edge_snake) =
  [Cube.mk (19, 10) (-1) 0 (255, 0, 0); Cube.mk (0, 5) 1 0 (255, 0, 0);
   Cube.mk (7, 0) 0 1 (255, 0, 0); Cube.mk (3, 19) 0 (-1) (255, 0, 0)].
Proof.
  apply list_eq. intros [|[|[|[|i]]]].
  - apply (proj1 (move_wraps_at_edges 20 edge_snake 0 _ eq_refl eq_refl
                    (or_intror eq_refl)));
      [reflexivity | vm_compute; discriminate].
  - apply (proj1 (proj2 (move_wraps_at_edges 20 edge_snake 1 _ eq_refl eq_refl
                           (or_intror eq_refl))));
      [reflexivity | vm_compute; discriminate].
  - apply (proj1 (proj2 (proj2
        (move_wraps_at_edges 20 edge_snake 2 _ eq_refl eq_refl
           (or_introl eq_refl)))));
      [reflexivity | vm_compute; discriminate].
  - apply (proj2 (proj2 (proj2
        (move_wraps_at_edges 20 edge_snake 3 _ eq_refl eq_refl
           (or_introl eq_refl)))));
      [reflexivity | vm_compute; discriminate].
  - reflexivity.
Defined.

(** ** Input handling *)

(** C5: whatever the snake's direction among (1,0), (-1,0), (0,1), (0,-1),
    a key state that holds the key of the reverse direction and no other
    key leaves the snake as it is: direction and pending turns (and
    everything else) are unchanged. *)
Theorem reversal_never_accepted (s : Snake.t) (keys : KeyState) (k : Key) :
  axis_unit (Snake.dirnx s, Snake.dirny s) ->
  requested k = (- Snake.dirnx s, - Snake.dirny s) ->
  keys k = Some true ->
  (forall k', k' <> k -> keys k' = Some false) ->
  Snake.handle_input keys s = s /\
  (Snake.dirnx (Snake.handle_input keys s),
   Snake.dirny (Snake.handle_input keys s)) = (Snake.dirnx s, Snake.dirny s) /\
  Snake.turns (Snake.handle_input keys s) = Snake.turns s.
Proof.
  intros Hdir Hrev Hk Hother.
  assert (Snake.handle_input keys s = s) as ->; [|done].
  unfold Snake.handle_input.
  destruct k; simpl in Hrev;
    repeat match goal with
    | |- context [keys ?k'] =>
      first [ rewrite Hk | rewrite (Hother k') by discriminate ]
    end;
    destruct Hdir as [Hd|[Hd|[Hd|Hd]]];
    injection Hd as Hx Hy; rewrite Hx, Hy in *; simpl in *;
    first [ done | discriminate Hrev ].
Qed.

Lemma reversal_never_accepted_witness :
  Snake.handle_input (pressed K_UP) (Snake.init (255, 0, 0) (10, 10)) =
    Snake.init (255, 0, 0) (10, 10) /\
  (Snake.dirnx (Snake.handle_input (pressed K_UP) (Snake.init (255, 0, 0) (10, 10))),
   Snake.dirny (Snake.handle_input (pressed K_UP) (Snake.init (255, 0, 0) (10, 10))))
    = (0, 1) /\
  Snake.turns (Snake.handle_input (pressed K_UP) (Snake.init (255, 0, 0) (10, 10)))
    = ∅.
Proof.
  apply (reversal_never_accepted (Snake.init (255, 0, 0) (10, 10))
           (pressed K_UP) K_UP).
  - right; right; left; reflexivity.
  - reflexivity.
  - reflexivity.
  - intros [] Hne; first [ reflexivity | exfalso; apply Hne; reflexivity ].
Defined.

(** ** Growth *)

Lemma set_last_dir_snoc r : forall h c dx dy,
  Snake.set_last_dir h (r ++ [c]) dx dy = (h, r ++ [Cube.set_dir c dx dy]).
Proof.
  induction r as [|c2 r IH]; intros h c dx dy; [done|].
  cbn [app Snake.set_last_dir]. by rewrite IH.
Qed.

Lemma set_dir_same c : Cube.set_dir c (Cube.dirnx c) (Cube.dirny c) = c.
Proof. by destruct c. Qed.

(** Reassigning the last cube's direction to its own value changes nothing. *)
Lemma set_last_dir_same r : forall h,
  let tl := match last r with Some c => c | None => h end in
  Snake.set_last_dir h r (Cube.dirnx tl) (Cube.dirny tl) = (h, r).
Proof.
  induction r as [|c r IH]; intros h; cbv zeta.
  - simpl. by rewrite set_dir_same.
  - cbn [Snake.set_last_dir]. rewrite last_cons.
    specialize (IH c). cbv zeta in IH.
    destruct (last r); by rewrite IH.
Qed.

Lemma new_cube_axis_unit tl :
  axis_unit (cube_dir tl) ->
  Snake.new_cube tl =
    Some (Cube.init (Cube.x tl - Cube.dirnx tl, Cube.y tl - Cube.dirny tl)).
Proof.
  unfold Snake.new_cube, cube_dir.
  intros [H|[H|[H|H]]]; injection H as -> ->; simpl; repeat f_equal; lia.
Qed.

Lemma new_cube_not_axis_unit tl :
  ~ axis_unit (cube_dir tl) -> Snake.new_cube tl = None.
Proof.
  unfold Snake.new_cube, cube_dir, axis_unit. intros H.
  repeat match goal with
         | |- context [Z.eqb ?a ?b] => destruct (Z.eqb_spec a b)
         end;
    simpl; try reflexivity; exfalso; apply H;
    first [ left; congruence | right; left; congruence
          | right; right; left; congruence | right; right; right; congruence ].
Qed.

(** With an axis direction in the tail, [add_cube] appends one cube. *)
Lemma body_add_cube_axis_unit s :
  axis_unit (cube_dir (Snake.tail s)) ->
  Snake.body (Snake.add_cube s) = Snake.body s ++
    [Cube.set_dir
       (Cube.init (Cube.x (Snake.tail s) - Cube.dirnx (Snake.tail s),
                   Cube.y (Snake.tail s) - Cube.dirny (Snake.tail s)))
       (Cube.dirnx (Snake.tail s)) (Cube.dirny (Snake.tail s))].
Proof.
  intros Hdir. unfold Snake.add_cube. rewrite (new_cube_axis_unit _ Hdir).
  rewrite set_last_dir_snoc. reflexivity.
Qed.

(** C6 as stated fails: [add_cube] does not lengthen every snake. The body
    of a snake whose tail stores the direction (0,0) has the same length
    after the call. *)
Lemma add_cube_still_snake :
  length (Snake.body still_snake) = 1%nat /\
  length (Snake.body (Snake.add_cube still_snake)) = 1%nat.
Proof. split; reflexivity. Qed.

(** C6 (amended): for every snake whose tail stores one of the directions
    (1,0), (-1,0), (0,1), (0,-1), one [add_cube] appends exactly one cube
    after the old body: the length grows by one, the new tail has the old
    tail's stored direction, and its position is the old tail's position
    moved one cell against that direction. *)
Theorem add_cube_appends_behind_tail (s : Snake.t) :
  axis_unit (cube_dir (Snake.tail s)) ->
  let tl := Snake.tail s in
  let s' := Snake.add_cube s in
  length (Snake.body s') = S (length (Snake.body s)) /\
  cube_dir (Snake.tail s') = cube_dir tl /\
  Cube.pos (Snake.tail s') =
    (Cube.x tl - Cube.dirnx tl, Cube.y tl - Cube.dirny tl) /\
  Snake.body s' = Snake.body s ++ [Snake.tail s'].
Proof.
  intros Hdir. cbv zeta.
  pose proof (body_add_cube_axis_unit s Hdir) as Hb.
  pose proof (tail_last (Snake.add_cube s)) as Hl.
  rewrite Hb, last_snoc in Hl. injection Hl as Hl.
  rewrite Hb, <- Hl. rewrite length_app. simpl.
  repeat split. lia.
Qed.

Lemma add_cube_appends_behind_tail_witness :
  let s := Snake.init (255, 0, 0) (10, 10) in
  length (Snake.body (Snake.add_cube s)) = 2%nat /\
  cube_dir (Snake.tail (Snake.add_cube s)) = (1, 0) /\
  Cube.pos (Snake.tail (Snake.add_cube s)) = (9, 10) /\
  Snake.body (Snake.add_cube s) = Snake.body s ++ [Snake.tail (Snake.add_cube s)].
Proof.
  apply (add_cube_appends_behind_tail (Snake.init (255, 0, 0) (10, 10))).
  left; reflexivity.
Defined.

(** C10: when the tail's stored direction is none of (1,0), (-1,0), (0,1),
    (0,-1), [add_cube] appends nothing. The snake is left as it was: same
    body, hence same length and same last cube, whose direction fields are
    assigned the values they already hold. *)
Theorem add_cube_without_axis_direction (s : Snake.t) :
  ~ axis_unit (cube_dir (Snake.tail s)) ->
  Snake.add_cube s = s /\
  length (Snake.body (Snake.add_cube s)) = length (Snake.body s) /\
  Snake.tail (Snake.add_cube s) = Snake.tail s.
Proof.
  intros Hdir.
  assert (Snake.add_cube s = s) as ->; [|done].
  unfold Snake.add_cube. rewrite (new_cube_not_axis_unit _ Hdir).
  pose proof (set_last_dir_same (Snake.rest s) (Snake.head s)) as H.
  cbv zeta in H. fold (Snake.tail s) in H. rewrite H.
  by destruct s.
Qed.

Lemma add_cube_without_axis_direction_witness :
  Snake.add_cube still_snake = still_snake /\
  length (Snake.body (Snake.add_cube still_snake)) = 1%nat /\
  Snake.tail (Snake.add_cube still_snake) = Cube.mk (5, 5) 0 0 (255, 0, 0).
Proof.
  apply (add_cube_without_axis_direction still_snake).
  intros [H|[H|[H|H]]]; discriminate H.
Defined.

(** ** The self-collision step *)

Lemma hits_later_spec body x :
  Game.hits_later body x = true <-> collides_at body x.
Proof.
  unfold Game.hits_later, collides_at. split.
  - destruct (body !! x) as [c|] eqn:Hx; [|done].
    intros H. apply bool_decide_eq_true in H.
    apply list_elem_of_fmap in H as (c' & Hp & Hin).
    apply list_elem_of_lookup in Hin as [j Hj].
    rewrite lookup_drop in Hj.
    exists c, (S x + j)%nat, c'. repeat split; [lia | done | done].
  - intros (c & j & c' & Hx & Hlt & Hj & Hp). rewrite Hx.
    apply bool_decide_eq_true, list_elem_of_fmap.
    exists c'. split; [done|].
    apply list_elem_of_lookup. exists (j - S x)%nat.
    rewrite lookup_drop. by replace (S x + (j - S x))%nat with j by lia.
Qed.

Lemma collision_loop_first s i : forall n a seen,
  (a <= i < a + n)%nat ->
  collides_at (Snake.body s) i ->
  (forall k, (a <= k < i)%nat -> ~ collides_at (Snake.body s) k) ->
  Game.collision_loop s seen (seq a n) =
    {| Game.snake := Snake.reset s Game.start;
       Game.alerts := [length (Snake.body s)];
       Game.checked := seen ++ seq a (S i - a) |}.
Proof.
  induction n as [|n IH]; intros a seen Hai Hi Hbefore; [lia|].
  cbn [seq Game.collision_loop].
  destruct (Game.hits_later (Snake.body s) a) eqn:Ha.
  - apply hits_later_spec in Ha.
    assert (a = i) as ->.
    { destruct (decide (a = i)) as [|Hne]; [done|].
      exfalso. apply (Hbefore a); [lia | done]. }
    by replace (S i - i)%nat with 1%nat by lia.
  - assert (a <> i) as Hne.
    { intros ->. apply hits_later_spec in Hi. congruence. }
    rewrite (IH (S a) (seen ++ [a])); [| lia | done | intros; apply Hbefore; lia].
    rewrite <- app_assoc. repeat f_equal.
    replace (S i - a)%nat with (S (S i - S a)) by lia. reflexivity.
Qed.

Lemma collision_loop_none s : forall n a seen,
  (forall k, (a <= k < a + n)%nat -> ~ collides_at (Snake.body s) k) ->
  Game.collision_loop s seen (seq a n) =
    {| Game.snake := s; Game.alerts := []; Game.checked := seen ++ seq a n |}.
Proof.
  induction n as [|n IH]; intros a seen Hnone.
  - simpl. by rewrite app_nil_r.
  - cbn [seq Game.collision_loop].
    destruct (Game.hits_later (Snake.body s) a) eqn:Ha.
    + apply hits_later_spec in Ha. exfalso. apply (Hnone a); [lia | done].
    + rewrite IH by (intros; apply Hnone; lia).
      by rewrite <- app_assoc.
Qed.

(** Without a collision the step changes nothing, raises no alert and has
    tested every index. *)
Lemma self_collision_none s :
  (forall k, ~ collides_at (Snake.body s) k) ->
  Game.self_collision s =
    {| Game.snake := s; Game.alerts := [];
       Game.checked := seq 0 (length (Snake.body s)) |}.
Proof. intros H. unfold Game.self_collision. by rewrite collision_loop_none. Qed.

(** At most one alert is raised in a pass, whatever the body. *)
Lemma self_collision_alerts_le_1 s :
  (length (Game.alerts (Game.self_collision s)) <= 1)%nat.
Proof.
  unfold Game.self_collision. generalize (@nil nat) as seen.
  induction (seq 0 (length (Snake.body s))) as [|x xs IH]; intros seen;
    cbn [Game.collision_loop]; [simpl; lia|].
  destruct (Game.hits_later (Snake.body s) x); [simpl; lia | apply IH].
Qed.

(** C7: scanning the indices from 0 upward, the collision is detected at
    the first index [i] whose position occurs in a strictly later segment.
    Then exactly one alert is raised, with score the body length at that
    moment; the snake is reset to a single segment at the start position
    with no pending turns and direction (0,1); and the indices tested are
    0..i only, none after the detection. *)
Theorem first_collision_resets (s : Snake.t) (i : nat) :
  collides_at (Snake.body s) i ->
  (forall k, (k < i)%nat -> ~ collides_at (Snake.body s) k) ->
  let out := Game.self_collision s in
  Game.alerts out = [length (Snake.body s)] /\
  Game.checked out = seq 0 (S i) /\
  Game.snake out = Snake.reset s Game.start /\
  Snake.body (Game.snake out) = [Cube.init Game.start] /\
  Snake.turns (Game.snake out) = ∅ /\
  (Snake.dirnx (Game.snake out), Snake.dirny (Game.snake out)) = (0, 1).
Proof.
  intros Hi Hbefore. cbv zeta. unfold Game.self_collision.
  rewrite (collision_loop_first s i).
  - repeat split.
  - destruct Hi as (c & j & c' & Hc & Hlt & Hj & _).
    apply lookup_lt_Some in Hc. lia.
  - done.
  - intros k Hk. apply Hbefore. lia.
Qed.

Lemma first_collision_resets_witness :
  let out := Game.self_collision crossed_snake in
  Game.alerts out = [4%nat] /\
  Game.checked out = [0%nat] /\
  Game.snake out = Snake.reset crossed_snake Game.start /\
  Snake.body (Game.snake out) = [Cube.init (10, 10)] /\
  Snake.turns (Game.snake out) = ∅ /\
  (Snake.dirnx (Game.snake out), Snake.dirny (Game.snake out)) = (0, 1).
Proof.
  apply (first_collision_resets crossed_snake 0).
  - exists (Cube.init (5, 5)), 2%nat, (Cube.init (5, 5)).
    repeat split. lia.
  - intros k Hk. lia.
Defined.

(** ** Snack placement *)

Lemma overlaps_spec positions p :
  Utils.overlaps positions p = true <-> occupied positions p.
Proof.
  unfold Utils.overlaps, occupied.
  induction positions as [|c cs IH].
  - simpl. split.
    + discriminate.
    + intros (c & Hc & _). by apply elem_of_nil in Hc.
  - rewrite filter_cons. destruct (decide (Cube.pos c = p)) as [Hp|Hp].
    + simpl. split.
      * intros _. exists c. split; [left | done].
      * done.
    + rewrite IH. split.
      * intros (c' & Hc' & Hp'). exists c'. split; [by right | done].
      * intros (c' & Hc' & Hp'). apply elem_of_cons in Hc' as [->|Hc'].
        -- done.
        -- by exists c'.
Qed.

Lemma overlaps_false positions p :
  Utils.overlaps positions p = false <-> ~ occupied positions p.
Proof.
  rewrite <- overlaps_spec.
  destruct (Utils.overlaps positions p); split; intros H;
    first [ done | exfalso; by apply H ].
Qed.

Section RandomSnack.
Variables (rows : Z) (positions : list Cube.t) (draws : nat -> Z).
Hypothesis rows_positive : 1 <= rows.

Lemma rows_not_refused : (rows <=? 0) = false.
Proof. apply Z.leb_gt. lia. Qed.

(** Iterations whose draw is rejected only use up fuel. *)
Lemma random_snack_from_skip n : forall fuel i,
  (forall j, (j < n)%nat -> occupied positions (Utils.drawn draws (i + j))) ->
  Utils.random_snack_from (n + fuel) rows positions draws (2 * i) =
  Utils.random_snack_from fuel rows positions draws (2 * (i + n)).
Proof.
  induction n as [|n IH]; intros fuel i Hocc.
  - by rewrite Nat.add_0_r.
  - cbn [Nat.add Utils.random_snack_from]. rewrite rows_not_refused.
    pose proof (Hocc 0%nat ltac:(lia)) as H0.
    rewrite Nat.add_0_r in H0. apply overlaps_spec in H0.
    unfold Utils.drawn in H0. rewrite H0.
    replace (S (S (2 * i))) with (2 * S i)%nat by lia.
    rewrite IH.
    + f_equal. lia.
    + intros j Hj. replace (S i + j)%nat with (i + S j)%nat by lia.
      apply Hocc. lia.
Qed.

(** The first draw that is not rejected is returned. *)
Lemma random_snack_from_accept fuel i :
  ~ occupied positions (Utils.drawn draws i) ->
  Utils.random_snack_from (S fuel) rows positions draws (2 * i) =
    Utils.Returned (Utils.drawn draws i).
Proof.
  intros H. apply overlaps_false in H. cbn [Utils.random_snack_from].
  rewrite rows_not_refused. unfold Utils.drawn in H. by rewrite H.
Qed.

(** A returned cell was drawn in some iteration and is not occupied. *)
Lemma random_snack_from_some fuel : forall i r,
  Utils.random_snack_from fuel rows positions draws (2 * i) = Utils.Returned r ->
  exists j, r = Utils.drawn draws j /\ ~ occupied positions r.
Proof.
  induction fuel as [|fuel IH]; intros i r; [done|].
  cbn [Utils.random_snack_from]. rewrite rows_not_refused.
  destruct (Utils.overlaps positions (draws (2 * i)%nat, draws (S (2 * i))))
    eqn:E.
  - replace (S (S (2 * i))) with (2 * S i)%nat by lia. apply IH.
  - intros [= <-]. exists i. split; [done|]. by apply overlaps_false.
Qed.

(** While every draw is rejected the loop never leaves. *)
Lemma random_snack_from_none fuel : forall i,
  (forall j, occupied positions (Utils.drawn draws j)) ->
  Utils.random_snack_from fuel rows positions draws (2 * i) = Utils.Running.
Proof.
  induction fuel as [|fuel IH]; intros i Hocc; [done|].
  cbn [Utils.random_snack_from]. rewrite rows_not_refused.
  pose proof (Hocc i) as H0. apply overlaps_spec in H0.
  unfold Utils.drawn in H0. rewrite H0.
  replace (S (S (2 * i))) with (2 * S i)%nat by lia. by apply IH.
Qed.

Lemma drawn_in_grid i : Utils.draws_below rows draws -> in_grid rows (Utils.drawn draws i).
Proof. intros H. split; apply H. Qed.

End RandomSnack.

(** On a grid size that is not positive [randbelow] raises at once. *)
Lemma random_snack_refused fuel rows snake draws :
  rows <= 0 -> Utils.random_snack (S fuel) rows snake draws = Utils.Raised.
Proof.
  intros H. unfold Utils.random_snack. cbn [Utils.random_snack_from].
  by destruct (Z.leb_spec rows 0); [|lia].
Qed.

(** Among the iterations that draw a free cell there is a first one. *)
Lemma first_free_draw positions draws i :
  ~ occupied positions (Utils.drawn draws i) ->
  exists i0, (i0 <= i)%nat /\ ~ occupied positions (Utils.drawn draws i0) /\
             forall j, (j < i0)%nat -> occupied positions (Utils.drawn draws j).
Proof.
  induction i as [i IH] using lt_wf_ind. intros Hfree.
  destruct (decide (Forall (fun j => Utils.overlaps positions (Utils.drawn draws j) = true)
                           (seq 0 i))) as [Hall|Hex].
  - exists i. repeat split; [lia | done |]. intros j Hj.
    apply overlaps_spec. rewrite Forall_forall in Hall. apply Hall.
    apply elem_of_seq. lia.
  - apply not_Forall_Exists in Hex; [|intros j; apply _].
    apply Exists_exists in Hex as (j & Hj & Hfj).
    apply elem_of_seq in Hj. apply not_true_is_false, overlaps_false in Hfj.
    destruct (IH j ltac:(lia) Hfj) as (i0 & Hle & H0 & Hb).
    exists i0. repeat split; [lia | done | done].
Qed.

(** C8: on a grid of size N >= 1 with a body that leaves a cell free,
    whenever [random_snack] returns, the cell returned lies in the grid and
    is the position of no segment of the body. *)
Theorem random_snack_returns_free_cell
    (fuel : nat) (rows : Z) (snake : Snake.t) (draws : nat -> Z) (r : Pos) :
  1 <= rows ->
  Utils.draws_below rows draws ->
  (exists p, in_grid rows p /\ ~ occupied (Snake.body snake) p) ->
  Utils.random_snack fuel rows snake draws = Utils.Returned r ->
  (0 <= fst r < rows /\ 0 <= snd r < rows) /\
  forall c, c ∈ Snake.body snake -> Cube.pos c <> r.
Proof.
  intros Hrows Hdraws _ Hret. unfold Utils.random_snack in Hret.
  apply (random_snack_from_some rows _ draws Hrows fuel 0) in Hret
    as (j & -> & Hfree).
  split; [by apply drawn_in_grid|].
  intros c Hc Hp. apply Hfree. by exists c.
Qed.

Lemma zeros_then_ones_below : Utils.draws_below 2 zeros_then_ones.
Proof. intros k. unfold zeros_then_ones. destruct (k <? 2)%nat; lia. Qed.

Lemma corner_free : ~ occupied (Snake.body corner_body_snake) (1, 1).
Proof.
  intros (c & Hc & Hp). unfold corner_body_snake, Snake.body in Hc. simpl in Hc.
  repeat (apply elem_of_cons in Hc as [->|Hc]; [discriminate Hp|]).
  by apply elem_of_nil in Hc.
Qed.

Lemma random_snack_returns_free_cell_witness :
  (0 <= fst (1, 1) < 2 /\ 0 <= snd (1, 1) < 2) /\
  forall c, c ∈ Snake.body corner_body_snake -> Cube.pos c <> (1, 1).
Proof.
  apply (random_snack_returns_free_cell 2 2 corner_body_snake zeros_then_ones (1, 1)).
  - lia.
  - exact zeros_then_ones_below.
  - exists (1, 1). split; [unfold in_grid; simpl; lia | exact corner_free].
  - reflexivity.
Defined.

(** ** How often the loop of [random_snack] is still running *)

Lemma countb_app {A} (f : A -> bool) l1 l2 :
  countb f (l1 ++ l2) = (countb f l1 + countb f l2)%nat.
Proof. induction l1 as [|a l1 IH]; simpl; [done|]. rewrite IH. lia. Qed.

Lemma countb_map {A B} (f : B -> bool) (g : A -> B) l :
  countb f (map g l) = countb (fun a => f (g a)) l.
Proof. induction l as [|a l IH]; simpl; [done|]. by rewrite IH. Qed.

Lemma countb_ext {A} (f g : A -> bool) l :
  (forall a, a ∈ l -> f a = g a) -> countb f l = countb g l.
Proof.
  induction l as [|a l IH]; intros H; simpl; [done|].
  rewrite (H a) by left. rewrite IH; [done|]. intros b Hb. apply H. by right.
Qed.

Lemma countb_false {A} (l : list A) : countb (fun _ => false) l = 0%nat.
Proof. induction l; simpl; done. Qed.

Lemma countb_le_length {A} (f : A -> bool) l : (countb f l <= length l)%nat.
Proof. induction l as [|a l IH]; simpl; [done|]. destruct (f a); lia. Qed.

Lemma countb_lt_length {A} (f : A -> bool) l a :
  a ∈ l -> f a = false -> (countb f l < length l)%nat.
Proof.
  induction l as [|b l IH]; intros Hin Hf; [by apply elem_of_nil in Hin|].
  simpl. apply elem_of_cons in Hin as [<-|Hin].
  - rewrite Hf. pose proof (countb_le_length f l). lia.
  - specialize (IH Hin Hf). destruct (f b); lia.
Qed.

Lemma elem_of_cells rows p : p ∈ cells rows <-> in_grid rows p.
Proof.
  unfold cells, in_grid. rewrite list_elem_of_In, in_flat_map. split.
  - intros (x & Hx & Hp). apply in_map_iff in Hp as (y & <- & Hy).
    apply list_elem_of_In, elem_of_seqZ in Hx.
    apply list_elem_of_In, elem_of_seqZ in Hy. simpl. lia.
  - destruct p as [x y]. simpl. intros [Hx Hy]. exists x. split.
    + apply list_elem_of_In, elem_of_seqZ. lia.
    + apply in_map_iff. exists y. split; [done|].
      apply list_elem_of_In, elem_of_seqZ. lia.
Qed.

Lemma length_flat_map_map {A B C} (g : A -> B -> C) (xs : list A) (ys : list B) :
  length (flat_map (fun x => map (g x) ys) xs) = (length xs * length ys)%nat.
Proof.
  induction xs as [|x xs IH]; [done|].
  cbn [flat_map length]. rewrite length_app, length_map, IH. lia.
Qed.

Lemma length_cells rows :
  length (cells rows) = (Z.to_nat rows * Z.to_nat rows)%nat.
Proof. unfold cells. by rewrite length_flat_map_map, length_seqZ. Qed.

Lemma length_outcomes rows k :
  length (outcomes rows k) = (length (cells rows) ^ k)%nat.
Proof.
  induction k as [|k IH]; [done|]. cbn [outcomes Nat.pow].
  by rewrite (length_flat_map_map cons), IH.
Qed.

Lemma elem_of_outcomes_length rows k l : l ∈ outcomes rows k -> length l = k.
Proof.
  revert l. induction k as [|k IH]; intros l Hl.
  - apply list_elem_of_singleton in Hl. by subst.
  - cbn [outcomes] in Hl. apply list_elem_of_In, in_flat_map in Hl as (c & _ & Hl).
    apply in_map_iff in Hl as (l' & <- & Hl'). simpl. f_equal.
    apply IH. by apply list_elem_of_In.
Qed.

Lemma drawn_stream_of l (i : nat) c :
  l !! i = Some c -> Utils.drawn (stream_of l) i = c.
Proof.
  intros Hi. unfold Utils.drawn, stream_of.
  replace (S (2 * i)) with (S (2 * i))%nat by done.
  rewrite Nat.div2_double, Nat.div2_succ_double, Hi.
  rewrite Nat.even_succ, Nat.odd_even. destruct c as [x y].
  by rewrite Nat.even_even.
Qed.

(** The loop is still running after [fuel] iterations exactly when each of
    them drew an occupied cell. *)
Lemma random_snack_from_running rows positions draws fuel :
  1 <= rows -> forall i,
  match Utils.random_snack_from fuel rows positions draws (2 * i) with
  | Utils.Running => true
  | _ => false
  end = forallb (fun j => Utils.overlaps positions (Utils.drawn draws j)) (seq i fuel).
Proof.
  intros Hrows. induction fuel as [|fuel IH]; intros i; [done|].
  cbn [Utils.random_snack_from seq forallb]. rewrite rows_not_refused by done.
  unfold Utils.drawn at 1.
  destruct (Utils.overlaps positions (draws (2 * i)%nat, draws (S (2 * i)))); [|done].
  replace (S (S (2 * i))) with (2 * S i)%nat by lia. apply IH.
Qed.

Lemma forallb_seq_lookup {A} (h : nat -> bool) (g : A -> bool) (l : list A) :
  forall a, (forall (j : nat) c, l !! j = Some c -> h (a + j)%nat = g c) ->
  forallb h (seq a (length l)) = forallb g l.
Proof.
  induction l as [|c l IH]; intros a H; [done|].
  cbn [length seq forallb]. f_equal.
  - rewrite <- (H 0%nat c eq_refl). f_equal. lia.
  - apply IH. intros j c' Hj. rewrite <- (H (S j) c' Hj). f_equal. lia.
Qed.

Lemma still_running_spec k rows snake l :
  1 <= rows -> length l = k ->
  still_running k rows snake l = forallb (Utils.overlaps (Snake.body snake)) l.
Proof.
  intros Hrows <-. unfold still_running, Utils.random_snack.
  change 0%nat with (2 * 0)%nat at 1. rewrite random_snack_from_running by done.
  apply forallb_seq_lookup. intros j c Hj. simpl.
  by rewrite (drawn_stream_of l j c Hj).
Qed.

Lemma countb_flat_map_cons {A} (f : A -> bool) (cs : list A) (ls : list (list A)) :
  countb (forallb f) (flat_map (fun c => map (cons c) ls) cs) =
  (countb f cs * countb (forallb f) ls)%nat.
Proof.
  induction cs as [|c cs IH]; [done|].
  cbn [flat_map countb]. rewrite countb_app, countb_map, IH. cbn [forallb].
  destruct (f c).
  - change (countb (fun a => true && forallb f a) ls) with (countb (forallb f) ls).
    lia.
  - change (countb (fun a => false && forallb f a) ls)
      with (countb (fun _ : list A => false) ls).
    rewrite countb_false. lia.
Qed.

Lemma countb_outcomes rows (f : Pos -> bool) k :
  countb (forallb f) (outcomes rows k) = (countb f (cells rows) ^ k)%nat.
Proof.
  induction k as [|k IH]; [done|]. cbn [outcomes Nat.pow].
  by rewrite countb_flat_map_cons, IH.
Qed.

(** Of the outcomes of [k] iterations, those that leave the loop running
    are the ones made of occupied cells only. *)
Lemma count_still_running rows snake k :
  1 <= rows ->
  countb (still_running k rows snake) (outcomes rows k) =
  (countb (Utils.overlaps (Snake.body snake)) (cells rows) ^ k)%nat.
Proof.
  intros Hrows. rewrite <- countb_outcomes. apply countb_ext. intros l Hl.
  apply still_running_spec; [done|]. by apply elem_of_outcomes_length in Hl.
Qed.

Lemma pow_bernoulli (o k : nat) : ((o + k) * o ^ k <= o * (o + 1) ^ k)%nat.
Proof.
  induction k as [|k IH]; [simpl; lia|].
  cbn [Nat.pow].
  assert ((o + S k) * (o * o ^ k) <= (o + 1) * ((o + k) * o ^ k))%nat by nia.
  nia.
Qed.

(** A proper fraction raised to a high enough power is below any bound. *)
Lemma pow_ratio_vanishes (o n M : nat) :
  (o < n)%nat -> exists k, (M * o ^ k < n ^ k)%nat.
Proof.
  intros Hlt. destruct o as [|o].
  - exists 1%nat. simpl. lia.
  - exists (M * S o)%nat.
    pose proof (pow_bernoulli (S o) (M * S o)) as HB.
    assert (0 < S o ^ (M * S o))%nat as Hpos by (apply Nat.neq_0_lt_0, Nat.pow_nonzero; lia).
    assert ((S o + 1) ^ (M * S o) <= n ^ (M * S o))%nat as Hmono
      by (apply Nat.pow_le_mono_l; lia).
    nia.
Qed.

(** C9: on a grid of size N >= 1 with a free cell, [random_snack] returns
    as soon as its loop draws a free cell: on every draw sequence that draws
    one, in the iteration of the first such draw. Fewer than N*N cells of
    the grid are occupied, and of the (N*N)^k outcomes of the draws of k
    iterations exactly (occupied cells)^k leave the loop running, a share
    that falls below 1/M for every M. When every cell of the grid is
    occupied it returns on no draw sequence, however long it runs. *)
Theorem random_snack_termination (rows : Z) (snake : Snake.t) :
  1 <= rows ->
  let taken := countb (Utils.overlaps (Snake.body snake)) (cells rows) in
  let running k := countb (still_running k rows snake) (outcomes rows k) in
  ((exists p, in_grid rows p /\ ~ occupied (Snake.body snake) p) ->
     (forall draws i,
        Utils.draws_below rows draws ->
        ~ occupied (Snake.body snake) (Utils.drawn draws i) ->
        exists i0, (i0 <= i)%nat /\
          forall fuel, (i0 < fuel)%nat ->
            Utils.random_snack fuel rows snake draws =
              Utils.Returned (Utils.drawn draws i0)) /\
     (taken < Z.to_nat rows * Z.to_nat rows)%nat /\
     (forall k, running k = (taken ^ k)%nat /\
                length (outcomes rows k) = ((Z.to_nat rows * Z.to_nat rows) ^ k)%nat) /\
     (forall M, exists k, (M * running k < length (outcomes rows k))%nat)) /\
  ((forall p, in_grid rows p -> occupied (Snake.body snake) p) ->
     forall draws, Utils.draws_below rows draws ->
       forall fuel, Utils.random_snack fuel rows snake draws = Utils.Running).
Proof.
  intros Hrows. cbv zeta. split.
  - intros (p & Hp & Hfree).
    assert (countb (Utils.overlaps (Snake.body snake)) (cells rows)
            < Z.to_nat rows * Z.to_nat rows)%nat as Hlt.
    { rewrite <- length_cells. apply (countb_lt_length _ _ p).
      - by apply elem_of_cells.
      - by apply overlaps_false. }
    repeat split.
    + intros draws i _ Hi.
      destruct (first_free_draw _ _ _ Hi) as (i0 & Hle & H0 & Hbefore).
      exists i0. split; [done|]. intros fuel Hfuel. unfold Utils.random_snack.
      replace fuel with (i0 + S (fuel - S i0))%nat by lia.
      change 0%nat with (2 * 0)%nat.
      rewrite random_snack_from_skip by (done || intros j Hj; by apply Hbefore).
      by apply random_snack_from_accept.
    + exact Hlt.
    + by apply count_still_running.
    + by rewrite length_outcomes, length_cells.
    + intros M. destruct (pow_ratio_vanishes _ _ M Hlt) as [k Hk].
      exists k. by rewrite count_still_running, length_outcomes, length_cells.
  - intros Hfull draws Hdraws fuel. unfold Utils.random_snack.
    change 0%nat with (2 * 0)%nat. apply random_snack_from_none; [done|].
    intros j. apply Hfull. by apply drawn_in_grid.
Qed.

Lemma corner_has_free_cell :
  exists p, in_grid 2 p /\ ~ occupied (Snake.body corner_body_snake) p.
Proof. exists (1, 1). split; [unfold in_grid; simpl; lia | exact corner_free]. Qed.

Lemma random_snack_termination_witness :
  ((exists i0, (i0 <= 1)%nat /\
      forall fuel, (i0 < fuel)%nat ->
        Utils.random_snack fuel 2 corner_body_snake zeros_then_ones =
          Utils.Returned (Utils.drawn zeros_then_ones i0)) /\
   (countb (Utils.overlaps (Snake.body corner_body_snake)) (cells 2) < 4)%nat) /\
  (forall fuel, Utils.random_snack fuel 1 full_snake (fun _ => 0) = Utils.Running).
Proof.
  split.
  - destruct (proj1 (random_snack_termination 2 corner_body_snake ltac:(lia))
                corner_has_free_cell) as (Hret & Hlt & _).
    split; [|exact Hlt].
    apply (Hret zeros_then_ones 1%nat zeros_then_ones_below corner_free).
  - apply (proj2 (random_snack_termination 1 full_snake ltac:(lia))).
    + intros [x y] [Hx Hy]. simpl in Hx, Hy.
      exists (Cube.init (0, 0)). split; [left|].
      simpl. f_equal; lia.
    + intros k. lia.
Defined.

(** ** Turn propagation *)

Section Propagation.
Variables (rows : Z) (p : Pos) (d : Dir).

Lemma cube_step_at c :
  Cube.pos c = p ->
  cube_step rows {[ p := d ]} c = Cube.move c (fst d) (snd d).
Proof. intros <-. unfold cube_step. by rewrite lookup_singleton_eq. Qed.

Lemma cube_step_off c :
  Cube.pos c <> p ->
  cube_step rows {[ p := d ]} c = Snake.edge_or_forward rows c.
Proof. intros H. unfold cube_step. by rewrite lookup_singleton_ne. Qed.

Lemma cube_step_keeps_turned c :
  cube_dir c = d -> cube_dir (cube_step rows {[ p := d ]} c) = d.
Proof.
  intros H. destruct (decide (Cube.pos c = p)) as [Hp|Hp].
  - rewrite cube_step_at by done. by destruct d.
  - rewrite cube_step_off by done. by rewrite edge_or_forward_dir.
Qed.

Lemma consume_at c :
  Cube.pos c = p -> consume {[ p := d ]} c = ∅.
Proof.
  intros <-. unfold consume. rewrite lookup_singleton_eq.
  apply delete_singleton_eq.
Qed.

Lemma consume_off c :
  Cube.pos c <> p -> consume {[ p := d ]} c = {[ p := d ]}.
Proof. intros H. unfold consume. by rewrite lookup_singleton_ne. Qed.

Lemma tail_lookup s :
  Snake.body s !! pred (length (Snake.body s)) = Some (Snake.tail s).
Proof. rewrite <- last_lookup. apply tail_last. Qed.

Lemma propagated_step b0 k s :
  trails rows p b0 -> (k < length b0)%nat ->
  propagated rows p d b0 k s -> propagated rows p d b0 (S k) (Snake.move rows s).
Proof.
  intros Htr Hk (Hlen & Hfree & Hturned & Htu).
  destruct (Nat.ltb_spec k (length b0)) as [_|]; [|lia].
  repeat split.
  - by rewrite length_body_move.
  - intros i c0 Hc0 Hi.
    rewrite lookup_body_move, (Hfree i c0 Hc0 ltac:(lia)), Htu. simpl.
    rewrite cube_step_off; [done|].
    apply (Htr i c0 Hc0). lia.
  - intros i c Hc Hi.
    rewrite lookup_body_move, Htu in Hc.
    destruct (Snake.body s !! i) as [c1|] eqn:Hc1; [|done].
    injection Hc as <-.
    destruct (decide (i = k)) as [->|Hne].
    + assert (is_Some (b0 !! k)) as [c0 Hc0] by (apply lookup_lt_is_Some; lia).
      rewrite (Hfree k c0 Hc0 ltac:(lia)) in Hc1. injection Hc1 as <-.
      rewrite cube_step_at by apply (Htr k c0 Hc0). by destruct d.
    + apply cube_step_keeps_turned. apply (Hturned i c1 Hc1). lia.
  - rewrite turns_move, Htu.
    pose proof (tail_lookup s) as Htl. rewrite Hlen in Htl.
    assert (is_Some (b0 !! pred (length b0))) as [c0 Hc0]
      by (apply lookup_lt_is_Some; lia).
    rewrite (Hfree _ c0 Hc0 ltac:(lia)) in Htl. injection Htl as <-.
    destruct (Nat.ltb_spec (S k) (length b0)).
    + apply consume_off. apply (Htr _ c0 Hc0). lia.
    + apply consume_at. replace k with (pred (length b0)) by lia.
      apply (Htr _ c0 Hc0).
Qed.

Lemma propagated_moves s k :
  Snake.turns s = {[ p := d ]} ->
  trails rows p (Snake.body s) ->
  (k <= length (Snake.body s))%nat ->
  propagated rows p d (Snake.body s) k (moves rows k s).
Proof.
  intros Htu Htr. induction k as [|k IH]; intros Hk.
  - repeat split; simpl.
    + intros i c0 Hc0 _. done.
    + intros i c _ Hi. lia.
    + done.
  - apply propagated_step; [done | lia | apply IH; lia].
Qed.

End Propagation.

(** C3 as stated fails. (a) The lap snake has 21 segments and one pending
    turn (0,1), at the head's cell (0,0). The tail stands on that cell too
    and consumes the entry in the first move; after 21 moves segment 1 still
    stores (1,0). (b) The gap snake has 2 segments and one pending turn at
    the head's cell; after 2 moves the entry is still pending and the tail
    stores (1,0). *)
Lemma turn_not_propagated :
  (length (Snake.body lap_snake) = 21%nat /\
   Snake.turns lap_snake = {[ (0, 0) := (0, 1) ]} /\
   Cube.pos (Snake.head lap_snake) = (0, 0) /\
   Snake.turns (moves 20 1 lap_snake) = ∅ /\
   cube_dir <$> Snake.body (moves 20 21 lap_snake) !! 1%nat = Some (1, 0)) /\
  (length (Snake.body gap_snake) = 2%nat /\
   Snake.turns gap_snake = {[ (5, 5) := (0, -1) ]} /\
   Cube.pos (Snake.head gap_snake) = (5, 5) /\
   Snake.turns (moves 20 2 gap_snake) !! (5, 5) = Some (0, -1) /\
   cube_dir (Snake.tail (moves 20 2 gap_snake)) = (1, 0)).
Proof. repeat split; vm_compute; reflexivity. Qed.

(** C3 (amended): take a snake with body length L whose pending-turns map
    holds exactly one entry, at the head's cell, and whose body trails the
    head (the segment at index i would first stand on that cell after
    exactly i moves in its own stored direction). Then the entry stays
    pending through the first L-1 moves, the tail stands on the cell after
    L-1 moves, the L-th move removes the entry, and after L moves every
    segment stores the recorded direction. *)
Theorem turn_propagates (rows : Z) (s : Snake.t) (p : Pos) (d : Dir) :
  Snake.turns s = {[ p := d ]} ->
  Cube.pos (Snake.head s) = p ->
  trails rows p (Snake.body s) ->
  let L := length (Snake.body s) in
  (forall k, (k < L)%nat -> Snake.turns (moves rows k s) = {[ p := d ]}) /\
  Cube.pos (Snake.tail (moves rows (pred L) s)) = p /\
  Snake.turns (moves rows L s) = ∅ /\
  Forall (fun c => cube_dir c = d) (Snake.body (moves rows L s)).
Proof.
  intros Htu _ Htr L.
  pose proof (fun k => propagated_moves rows p d s k Htu Htr) as Hinv.
  assert (0 < L)%nat as HL by (unfold L, Snake.body; simpl; lia).
  repeat split.
  - intros k Hk. destruct (Hinv k ltac:(lia)) as (_ & _ & _ & Hk').
    rewrite Hk'. by destruct (Nat.ltb_spec k (length (Snake.body s))); [|lia].
  - destruct (Hinv (pred L) ltac:(lia)) as (Hlen & Hfree & _ & _).
    pose proof (tail_lookup (moves rows (pred L) s)) as Htl.
    rewrite Hlen in Htl. fold L in Htl.
    assert (is_Some (Snake.body s !! pred L)) as [c0 Hc0]
      by (apply lookup_lt_is_Some; lia).
    rewrite (Hfree _ c0 Hc0 ltac:(lia)) in Htl.
    assert (Snake.tail (moves rows (pred L) s) = free_run rows (pred L) c0)
      as -> by congruence.
    apply (Htr _ c0 Hc0).
  - destruct (Hinv L ltac:(lia)) as (_ & _ & _ & HL').
    rewrite HL'. by destruct (Nat.ltb_spec L (length (Snake.body s))); [lia|].
  - destruct (Hinv L ltac:(lia)) as (Hlen & _ & Hturned & _).
    apply Forall_lookup. intros i c Hc. apply (Hturned i c Hc).
    apply lookup_lt_Some in Hc. lia.
Qed.

Lemma straight_snake_trails :
  trails 20 (10, 10) (Snake.body straight_snake).
Proof.
  intros [|[|[|i]]] c Hc; simpl in Hc; try discriminate Hc;
    injection Hc as <-; (split; [reflexivity|]);
    intros [|[|j]] Hj; try lia; vm_compute; discriminate.
Qed.

Lemma turn_propagates_witness :
  (forall k, (k < 3)%nat ->
     Snake.turns (moves 20 k straight_snake) = {[ (10, 10) := (0, 1) ]}) /\
  Cube.pos (Snake.tail (moves 20 2 straight_snake)) = (10, 10) /\
  Snake.turns (moves 20 3 straight_snake) = ∅ /\
  Forall (fun c => cube_dir c = (0, 1)) (Snake.body (moves 20 3 straight_snake)).
Proof.
  apply (turn_propagates 20 straight_snake (10, 10) (0, 1)).
  - reflexivity.
  - reflexivity.
  - exact straight_snake_trails.
Defined.

(** ** The states the snake's own methods produce *)

Lemma well_directed_turn_to s dx dy :
  axis_unit (dx, dy) -> well_directed s -> well_directed (Snake.turn_to s dx dy).
Proof.
  intros Hd [Hb Ht]. split; [exact Hb|].
  unfold Snake.turn_to. simpl. by apply map_Forall_insert_2.
Qed.

Lemma well_directed_handle_input keys s :
  well_directed s -> well_directed (Snake.handle_input keys s).
Proof.
  intros H. unfold Snake.handle_input.
  repeat match goal with
         | |- context [match keys ?k with _ => _ end] => destruct (keys k)
         | |- context [if ?b then _ else _] => destruct b
         end;
    first [ exact H | apply well_directed_turn_to; [unfold axis_unit; tauto | exact H] ].
Qed.

Lemma cube_step_axis_unit rows tu c :
  map_Forall (fun _ d => axis_unit d) tu ->
  axis_unit (cube_dir c) -> axis_unit (cube_dir (cube_step rows tu c)).
Proof.
  intros Ht Hc. unfold cube_step.
  destruct (tu !! Cube.pos c) as [[dx dy]|] eqn:E.
  - apply (Ht _ _ E).
  - by rewrite edge_or_forward_dir.
Qed.

Lemma well_directed_move rows s :
  well_directed s -> well_directed (Snake.move rows s).
Proof.
  intros [Hb Ht]. split.
  - rewrite body_move. apply Forall_fmap.
    eapply Forall_impl; [exact Hb|]. intros c Hc. simpl.
    by apply cube_step_axis_unit.
  - rewrite turns_move. unfold consume.
    destruct (Snake.turns s !! Cube.pos (Snake.tail s)); [|done].
    by apply map_Forall_delete.
Qed.

Lemma tail_in_body s : Snake.tail s ∈ Snake.body s.
Proof. apply list_elem_of_lookup. eexists. apply tail_lookup. Qed.

Lemma well_directed_tail s :
  well_directed s -> axis_unit (cube_dir (Snake.tail s)).
Proof.
  intros [Hb _]. rewrite Forall_forall in Hb. apply Hb, tail_in_body.
Qed.

Lemma turns_add_cube s : Snake.turns (Snake.add_cube s) = Snake.turns s.
Proof. unfold Snake.add_cube. by destruct (Snake.set_last_dir _ _ _ _). Qed.

Lemma well_directed_add_cube s :
  well_directed s -> well_directed (Snake.add_cube s).
Proof.
  intros H. pose proof (well_directed_tail s H) as Htl.
  destruct H as [Hb Ht]. split.
  - rewrite (body_add_cube_axis_unit s Htl). apply Forall_app. split; [exact Hb|].
    apply Forall_singleton. exact Htl.
  - by rewrite turns_add_cube.
Qed.

Lemma well_directed_init col p : well_directed (Snake.init col p).
Proof.
  split.
  - apply Forall_singleton. by left.
  - apply map_Forall_empty.
Qed.

Lemma well_directed_reachable rows s :
  reachable rows s -> well_directed s.
Proof.
  induction 1 as [col p|s o _ IH].
  - apply well_directed_init.
  - destruct o as [keys| | |q]; simpl.
    + by apply well_directed_handle_input.
    + by apply well_directed_move.
    + by apply well_directed_add_cube.
    + apply (well_directed_init (Snake.color s) q).
Qed.

(** X1: in every state reached from a fresh snake through [handle_input],
    [move], [add_cube] and [reset], every segment and every pending turn
    stores one of the directions (1,0), (-1,0), (0,1), (0,-1). *)
Theorem reachable_well_directed rows s :
  reachable rows s ->
  (forall c, c ∈ Snake.body s -> axis_unit (cube_dir c)) /\
  (forall p d, Snake.turns s !! p = Some d -> axis_unit d).
Proof.
  intros Hr. destruct (well_directed_reachable rows s Hr) as [Hb Ht]. split.
  - by apply Forall_forall.
  - exact Ht.
Qed.

Lemma run_reachable rows ops : forall s,
  reachable rows s -> reachable rows (run rows ops s).
Proof.
  induction ops as [|o ops IH]; intros s Hs; [done|].
  apply IH. by constructor.
Qed.

Lemma lap_snake_reachable : reachable 20 lap_snake.
Proof. apply run_reachable. constructor. Qed.

Lemma reachable_well_directed_witness :
  (forall c, c ∈ Snake.body lap_snake -> axis_unit (cube_dir c)) /\
  (forall p d, Snake.turns lap_snake !! p = Some d -> axis_unit d).
Proof. apply (reachable_well_directed 20 lap_snake lap_snake_reachable). Defined.

(** X2: in every state reached through the snake's own methods, one
    [add_cube] lengthens the body by exactly one cube, which stores the old
    tail's direction and stands one cell behind the old tail. *)
Theorem reachable_add_cube_grows rows s :
  reachable rows s ->
  length (Snake.body (Snake.add_cube s)) = S (length (Snake.body s)) /\
  cube_dir (Snake.tail (Snake.add_cube s)) = cube_dir (Snake.tail s) /\
  Cube.pos (Snake.tail (Snake.add_cube s)) =
    (Cube.x (Snake.tail s) - Cube.dirnx (Snake.tail s),
     Cube.y (Snake.tail s) - Cube.dirny (Snake.tail s)).
Proof.
  intros Hr.
  pose proof (well_directed_tail s (well_directed_reachable rows s Hr)) as Htl.
  pose proof (body_add_cube_axis_unit s Htl) as Hb.
  pose proof (tail_last (Snake.add_cube s)) as Hl.
  rewrite Hb, last_snoc in Hl. injection Hl as Hl.
  rewrite Hb, <- Hl, length_app. simpl. repeat split. lia.
Qed.

Lemma reachable_add_cube_grows_witness :
  length (Snake.body (Snake.add_cube lap_snake)) = 22%nat /\
  cube_dir (Snake.tail (Snake.add_cube lap_snake)) = (1, 0) /\
  Cube.pos (Snake.tail (Snake.add_cube lap_snake)) = (-1, 0).
Proof. apply (reachable_add_cube_grows 20 lap_snake lap_snake_reachable). Defined.

(** X3: a segment that stands in the grid on a cell with no pending turn,
    with direction components in -1..1, stands in the grid after [move]:
    the edge branches and the forward step never leave the grid. *)
Theorem move_without_turn_stays_in_grid rows s (i : nat) c :
  1 <= rows ->
  Snake.body s !! i = Some c ->
  Snake.turns s !! Cube.pos c = None ->
  in_grid rows (Cube.pos c) ->
  -1 <= Cube.dirnx c <= 1 -> -1 <= Cube.dirny c <= 1 ->
  exists c', Snake.body (Snake.move rows s) !! i = Some c' /\
             in_grid rows (Cube.pos c').
Proof.
  intros Hrows Hi Htu [Hx Hy] Hdx Hdy.
  exists (Snake.edge_or_forward rows c). split.
  - rewrite lookup_body_move, Hi. simpl. unfold cube_step. by rewrite Htu.
  - unfold Snake.edge_or_forward, Cube.x, Cube.y, in_grid.
    repeat match goal with
           | |- context [Z.eqb ?a ?b] => destruct (Z.eqb_spec a b)
           | |- context [Z.leb ?a ?b] => destruct (Z.leb_spec a b)
           | |- context [Z.geb ?a ?b] => destruct (Z.geb_spec a b)
           end; simpl; lia.
Qed.

Lemma move_without_turn_stays_in_grid_witness :
  exists c', Snake.body (Snake.move 20 edge_snake) !! 2%nat = Some c' /\
             in_grid 20 (Cube.pos c').
Proof.
  apply (move_without_turn_stays_in_grid 20 edge_snake 2
           (Cube.mk (7, 19) 0 1 (255, 0, 0)));
    first [ reflexivity | unfold in_grid; simpl; lia | simpl; lia | lia ].
Defined.

(** * Further properties of the code *)

(** ** What [move] leaves alone *)

Lemma edge_or_forward_color rows c :
  Cube.color (Snake.edge_or_forward rows c) = Cube.color c.
Proof.
  unfold Snake.edge_or_forward.
  repeat match goal with |- context [if ?b then _ else _] => destruct b end;
    reflexivity.
Qed.

Lemma cube_step_color rows tu c :
  Cube.color (cube_step rows tu c) = Cube.color c.
Proof.
  unfold cube_step. destruct (tu !! Cube.pos c); [done|].
  apply edge_or_forward_color.
Qed.

Lemma consume_delete tu tl : consume tu tl = delete (Cube.pos tl) tu.
Proof.
  unfold consume. destruct (tu !! Cube.pos tl) eqn:E; [done|].
  by rewrite delete_id.
Qed.

Lemma move_fields rows s :
  Snake.color (Snake.move rows s) = Snake.color s /\
  Snake.dirnx (Snake.move rows s) = Snake.dirnx s /\
  Snake.dirny (Snake.move rows s) = Snake.dirny s.
Proof.
  unfold Snake.move.
  destruct (Snake.move_cube rows _ 0 (Snake.head s) (Snake.turns s)) as [h tu1].
  by destruct (Snake.move_loop rows _ 1 (Snake.rest s) tu1) as [r tu2].
Qed.

(** X4: [move] keeps the number of segments, the colour of each segment,
    and the snake's own colour and direction; it adds no pending turn, and
    the only entry it removes is the one under the tail's cell as it stood
    before the move. *)
Theorem move_frame (rows : Z) (s : Snake.t) :
  length (Snake.body (Snake.move rows s)) = length (Snake.body s) /\
  map Cube.color (Snake.body (Snake.move rows s)) = map Cube.color (Snake.body s) /\
  Snake.color (Snake.move rows s) = Snake.color s /\
  (Snake.dirnx (Snake.move rows s), Snake.dirny (Snake.move rows s)) =
    (Snake.dirnx s, Snake.dirny s) /\
  Snake.turns (Snake.move rows s) = delete (Cube.pos (Snake.tail s)) (Snake.turns s).
Proof.
  destruct (move_fields rows s) as (Hc & Hx & Hy).
  repeat split.
  - apply length_body_move.
  - rewrite body_move, map_map. apply map_ext. intros c. apply cube_step_color.
  - exact Hc.
  - by rewrite Hx, Hy.
  - rewrite turns_move. apply consume_delete.
Qed.

(** ** Growth followed by a move *)

(** X5: when the tail stands in the grid with one of the four axis
    directions and no turn is pending on the cell behind it, [add_cube]
    followed by [move] puts the new last segment exactly on the cell the
    old tail stood on, with the old tail's direction: the new segment
    follows the body, also when it was created outside the grid. *)
Theorem add_cube_then_move_follows (rows : Z) (s : Snake.t) :
  let tl := Snake.tail s in
  axis_unit (cube_dir tl) ->
  in_grid rows (Cube.pos tl) ->
  Snake.turns s !! (Cube.x tl - Cube.dirnx tl, Cube.y tl - Cube.dirny tl) = None ->
  length (Snake.body (Snake.move rows (Snake.add_cube s))) = S (length (Snake.body s)) /\
  Cube.pos (Snake.tail (Snake.move rows (Snake.add_cube s))) = Cube.pos tl /\
  cube_dir (Snake.tail (Snake.move rows (Snake.add_cube s))) = cube_dir tl.
Proof.
  intros tl Hdir [Hx Hy] Hfree. subst tl.
  pose proof (body_add_cube_axis_unit s Hdir) as Hb.
  set (new := Cube.set_dir _ _ _) in Hb.
  pose proof (tail_last (Snake.move rows (Snake.add_cube s))) as Hl.
  rewrite body_move, Hb, map_app in Hl. cbn [map] in Hl. rewrite last_snoc in Hl.
  injection Hl as Hl. rewrite <- Hl, length_body_move, Hb, length_app.
  split; [simpl; lia|].
  unfold cube_step. rewrite turns_add_cube. subst new. cbn [Cube.pos Cube.set_dir Cube.init].
  rewrite Hfree. unfold Snake.edge_or_forward, cube_dir, Cube.x, Cube.y in *.
  cbn [Cube.dirnx Cube.dirny Cube.pos Cube.set_dir Cube.init fst snd].
  destruct (Snake.tail s) as [[x y] dx dy col]. simpl in *.
  destruct Hdir as [H|[H|[H|H]]]; injection H as -> ->; simpl;
    repeat match goal with
           | |- context [Z.leb ?a ?b] => destruct (Z.leb_spec a b)
           | |- context [Z.geb ?a ?b] => destruct (Z.geb_spec a b)
           end; simpl; try lia; split; f_equal; lia.
Qed.

Lemma add_cube_then_move_follows_witness :
  length (Snake.body (Snake.move 20 (Snake.add_cube (Snake.init (255, 0, 0) (0, 7)))))
    = 2%nat /\
  Cube.pos (Snake.tail (Snake.move 20 (Snake.add_cube (Snake.init (255, 0, 0) (0, 7)))))
    = (0, 7) /\
  cube_dir (Snake.tail (Snake.move 20 (Snake.add_cube (Snake.init (255, 0, 0) (0, 7)))))
    = (1, 0).
Proof.
  apply (add_cube_then_move_follows 20 (Snake.init (255, 0, 0) (0, 7))).
  - left; reflexivity.
  - unfold in_grid; simpl; lia.
  - reflexivity.
Defined.

(** ** A lap around the torus *)

Lemma free_run_S rows (k : nat) c :
  free_run rows (S k) c = Snake.edge_or_forward rows (free_run rows k c).
Proof. reflexivity. Qed.

Lemma moves_S rows (k : nat) s :
  moves rows (S k) s = Snake.move rows (moves rows k s).
Proof. reflexivity. Qed.

(** Inside the grid, with an axis direction and no pending turn, one move
    is one step modulo the grid size. *)
Lemma edge_or_forward_mod rows c :
  1 <= rows -> in_grid rows (Cube.pos c) -> axis_unit (cube_dir c) ->
  Snake.edge_or_forward rows c =
    Cube.set_pos c ((Cube.x c + Cube.dirnx c) mod rows,
                    (Cube.y c + Cube.dirny c) mod rows).
Proof.
  intros Hrows [Hx Hy] Hdir.
  destruct c as [[x y] dx dy col].
  unfold Snake.edge_or_forward, cube_dir, Cube.x, Cube.y, Cube.set_pos, Cube.move in *.
  simpl in *.
  destruct Hdir as [H|[H|[H|H]]]; injection H as -> ->; simpl;
    repeat match goal with
           | |- context [Z.leb ?a ?b] => destruct (Z.leb_spec a b)
           | |- context [Z.geb ?a ?b] => destruct (Z.geb_spec a b)
           end; simpl; f_equal; f_equal;
    rewrite ?Z.add_0_r;
    first
      [ by rewrite Z.mod_small by lia
      | replace x with (rows - 1) by lia;
        replace (rows - 1 + 1) with (0 + 1 * rows) by lia;
        by rewrite Z_mod_plus_full
      | replace y with (rows - 1) by lia;
        replace (rows - 1 + 1) with (0 + 1 * rows) by lia;
        by rewrite Z_mod_plus_full
      | replace x with 0 by lia;
        replace (0 + -1) with (rows - 1 + (-1) * rows) by lia;
        rewrite Z_mod_plus_full; by rewrite Z.mod_small by lia
      | replace y with 0 by lia;
        replace (0 + -1) with (rows - 1 + (-1) * rows) by lia;
        rewrite Z_mod_plus_full; by rewrite Z.mod_small by lia ].
Qed.

Lemma free_run_mod rows c (k : nat) :
  1 <= rows -> in_grid rows (Cube.pos c) -> axis_unit (cube_dir c) ->
  free_run rows k c =
    Cube.set_pos c ((Cube.x c + Z.of_nat k * Cube.dirnx c) mod rows,
                    (Cube.y c + Z.of_nat k * Cube.dirny c) mod rows).
Proof.
  intros Hrows Hgrid Hdir. induction k as [|k IH].
  - destruct Hgrid as [Hx Hy]. simpl. rewrite !Z.add_0_r.
    rewrite !Z.mod_small by done. by destruct c as [[x y] dx dy col].
  - rewrite free_run_S, IH.
    rewrite edge_or_forward_mod; [| done | | done].
    + unfold Cube.set_pos, Cube.x, Cube.y. cbn [Cube.pos Cube.dirnx Cube.dirny fst snd].
      f_equal. f_equal.
      * rewrite Zplus_mod_idemp_l. f_equal. lia.
      * rewrite Zplus_mod_idemp_l. f_equal. lia.
    + split; simpl; apply Z.mod_pos_bound; lia.
Qed.

Lemma consume_empty c : consume ∅ c = ∅.
Proof. unfold consume. by rewrite lookup_empty. Qed.

Lemma moves_without_turns rows (k : nat) s :
  Snake.turns s = ∅ ->
  Snake.turns (moves rows k s) = ∅ /\
  Snake.body (moves rows k s) = map (free_run rows k) (Snake.body s).
Proof.
  intros Htu. induction k as [|k [IHt IHb]].
  - split; [done|]. unfold free_run. simpl. by rewrite map_id.
  - rewrite moves_S. split.
    + by rewrite turns_move, IHt, consume_empty.
    + rewrite body_move, IHt, IHb, map_map. apply map_ext. intros c.
      rewrite free_run_S. unfold cube_step. by rewrite lookup_empty.
Qed.

Lemma snake_eq (s1 s2 : Snake.t) :
  Snake.body s1 = Snake.body s2 -> Snake.turns s1 = Snake.turns s2 ->
  Snake.color s1 = Snake.color s2 ->
  Snake.dirnx s1 = Snake.dirnx s2 -> Snake.dirny s1 = Snake.dirny s2 ->
  s1 = s2.
Proof.
  destruct s1, s2. unfold Snake.body. simpl. intros [= -> ->] -> -> -> ->. done.
Qed.

Lemma moves_fields rows (k : nat) s :
  Snake.color (moves rows k s) = Snake.color s /\
  Snake.dirnx (moves rows k s) = Snake.dirnx s /\
  Snake.dirny (moves rows k s) = Snake.dirny s.
Proof.
  induction k as [|k (IHc & IHx & IHy)]; [done|].
  rewrite moves_S.
  destruct (move_fields rows (moves rows k s)) as (Hc & Hx & Hy).
  by rewrite Hc, Hx, Hy.
Qed.

(** X6: on an N-by-N grid, N >= 1, a snake with no pending turn whose
    segments all stand in the grid with one of the four axis directions is
    back in exactly the same state after N calls of [move]; after k calls
    each segment has advanced k cells in its direction, modulo N. *)
Theorem lap_returns (rows : Z) (s : Snake.t) :
  1 <= rows ->
  Snake.turns s = ∅ ->
  (forall c, c ∈ Snake.body s -> in_grid rows (Cube.pos c) /\ axis_unit (cube_dir c)) ->
  moves rows (Z.to_nat rows) s = s /\
  forall k : nat,
    Snake.body (moves rows k s) =
    map (fun c => Cube.set_pos c
                    ((Cube.x c + Z.of_nat k * Cube.dirnx c) mod rows,
                     (Cube.y c + Z.of_nat k * Cube.dirny c) mod rows))
        (Snake.body s).
Proof.
  intros Hrows Htu Hbody.
  assert (forall k : nat, Snake.body (moves rows k s) =
            map (fun c => Cube.set_pos c
                    ((Cube.x c + Z.of_nat k * Cube.dirnx c) mod rows,
                     (Cube.y c + Z.of_nat k * Cube.dirny c) mod rows))
                (Snake.body s)) as Hk.
  { intros k. destruct (moves_without_turns rows k s Htu) as [_ ->].
    apply map_ext_in. intros c Hc. apply list_elem_of_In in Hc.
    destruct (Hbody c Hc). by apply free_run_mod. }
  split; [|exact Hk].
  destruct (moves_fields rows (Z.to_nat rows) s) as (Hc & Hx & Hy).
  apply snake_eq; try done.
  - rewrite Hk. rewrite <- (map_id (Snake.body s)) at 2.
    apply map_ext_in. intros c Hin. apply list_elem_of_In in Hin.
    destruct (Hbody c Hin) as [[Hcx Hcy] _].
    rewrite Z2Nat.id by lia.
    destruct c as [[x y] dx dy col]. unfold Cube.set_pos, Cube.x, Cube.y in *.
    simpl in *. f_equal. f_equal.
    + replace (x + rows * dx) with (x + dx * rows) by lia.
      rewrite Z_mod_plus_full. by apply Z.mod_small.
    + replace (y + rows * dy) with (y + dy * rows) by lia.
      rewrite Z_mod_plus_full. by apply Z.mod_small.
  - destruct (moves_without_turns rows (Z.to_nat rows) s Htu) as [-> _]. done.
Qed.

Lemma row_of_three_in_grid c :
  c ∈ Snake.body row_of_three ->
  in_grid 20 (Cube.pos c) /\ axis_unit (cube_dir c).
Proof.
  assert (Snake.body row_of_three =
          [Cube.init (10, 10); Cube.init (9, 10); Cube.init (8, 10)]) as ->
    by reflexivity.
  intros Hc.
  repeat (apply elem_of_cons in Hc as [->|Hc];
          [split; [unfold in_grid; simpl; lia | by left]|]).
  by apply elem_of_nil in Hc.
Qed.

Lemma lap_returns_witness :
  moves 20 (Z.to_nat 20) row_of_three = row_of_three /\
  forall k : nat,
    Snake.body (moves 20 k row_of_three) =
    map (fun c => Cube.set_pos c
                    ((Cube.x c + Z.of_nat k * Cube.dirnx c) mod 20,
                     (Cube.y c + Z.of_nat k * Cube.dirny c) mod 20))
        (Snake.body row_of_three).
Proof.
  apply (lap_returns 20 row_of_three).
  - lia.
  - reflexivity.
  - exact row_of_three_in_grid.
Defined.

(** ** Input handling, key by key *)

Lemma handle_input_cases keys s :
  Snake.handle_input keys s = s \/
  exists k, keys k = Some true /\ accepts s k = true /\
            Snake.handle_input keys s =
              Snake.turn_to s (fst (requested k)) (snd (requested k)).
Proof.
  unfold Snake.handle_input.
  destruct (keys K_LEFT) as [[|]|] eqn:EL; [| |by left];
    (destruct (negb (Snake.dirnx s =? 1)) eqn:GL; simpl;
     [try (right; exists K_LEFT; by rewrite EL)|]);
    (destruct (keys K_RIGHT) as [[|]|] eqn:ER; [| |by left]);
    (destruct (negb (Snake.dirnx s =? -1)) eqn:GR; simpl;
     [try (right; exists K_RIGHT; by rewrite ER)|]);
    (destruct (keys K_UP) as [[|]|] eqn:EU; [| |by left]);
    (destruct (negb (Snake.dirny s =? 1)) eqn:GU; simpl;
     [try (right; exists K_UP; by rewrite EU)|]);
    (destruct (keys K_DOWN) as [[|]|] eqn:ED; [| |by left]);
    (destruct (negb (Snake.dirny s =? -1)) eqn:GD; simpl;
     [try (right; exists K_DOWN; by rewrite ED)|]);
    by left.
Qed.

Lemma accepts_not_reverse s k :
  accepts s k = true ->
  (Snake.dirnx s, Snake.dirny s) <> (- fst (requested k), - snd (requested k)).
Proof.
  destruct k; simpl; intros Hacc [= Hx Hy]; rewrite ?Hx, ?Hy in Hacc; discriminate.
Qed.

(** X7: whatever the key state, [handle_input] changes neither the body nor
    the colour, and either leaves the snake as it is or takes the direction
    of one key that is held: that direction is one of the four axis
    directions, it is not the reverse of the direction the snake had, and it
    is recorded as the pending turn on the head's cell, all other pending
    turns being kept. *)
Theorem handle_input_outcome (keys : KeyState) (s : Snake.t) :
  let s' := Snake.handle_input keys s in
  Snake.body s' = Snake.body s /\
  Snake.color s' = Snake.color s /\
  (s' = s \/
   exists k, keys k = Some true /\
     (Snake.dirnx s', Snake.dirny s') = requested k /\
     axis_unit (requested k) /\
     (Snake.dirnx s, Snake.dirny s) <> (- fst (requested k), - snd (requested k)) /\
     Snake.turns s' = <[Cube.pos (Snake.head s) := requested k]> (Snake.turns s)).
Proof.
  cbv zeta. destruct (handle_input_cases keys s) as [->|(k & Hk & Hacc & ->)].
  - repeat split. by left.
  - repeat split. right. exists k. repeat split.
    + exact Hk.
    + by destruct k.
    + destruct k; unfold axis_unit; simpl; tauto.
    + by apply accepts_not_reverse.
    + by destruct k.
Qed.

(** X8: when no lookup gives a held key (each of the four keys is up or
    missing from the key state, so that its lookup raises) [handle_input]
    returns the snake unchanged. *)
Theorem handle_input_nothing_held (keys : KeyState) (s : Snake.t) :
  (forall k, keys k <> Some true) ->
  Snake.handle_input keys s = s.
Proof.
  intros Hno. destruct (handle_input_cases keys s) as [H|(k & Hk & _)]; [done|].
  by destruct (Hno k).
Qed.

Lemma handle_input_nothing_held_witness :
  Snake.handle_input (fun k => match k with K_LEFT => Some false | _ => None end)
                     row_of_three = row_of_three.
Proof.
  apply (handle_input_nothing_held _ row_of_three).
  intros []; discriminate.
Defined.

(** X9: the keys are served in the order left, right, up, down. A held key
    whose direction is not refused wins over every key after it, provided
    each key before it could be looked up and was up or refused; the
    result is then that key's direction, recorded on the head's cell. *)
Theorem handle_input_priority (keys : KeyState) (s : Snake.t) (k : Key) :
  keys k = Some true ->
  accepts s k = true ->
  (forall k', (key_rank k' < key_rank k)%nat ->
     exists b, keys k' = Some b /\ b && accepts s k' = false) ->
  Snake.handle_input keys s =
    Snake.turn_to s (fst (requested k)) (snd (requested k)).
Proof.
  intros Hk Hacc Hbefore. unfold Snake.handle_input.
  destruct k; simpl in Hacc |- *;
    repeat match goal with
    | |- context [keys ?k'] =>
      first
        [ rewrite Hk
        | let b := fresh "b" in let Hb := fresh "Hb" in let Hg := fresh "Hg" in
          destruct (Hbefore k' ltac:(simpl; lia)) as (b & Hb & Hg);
          rewrite Hb; simpl in Hg; rewrite Hg ]
    end;
    by rewrite Hacc.
Qed.

Lemma handle_input_priority_witness :
  Snake.handle_input
    (fun k => match k with K_LEFT => Some false | _ => Some true end)
    (Snake.init (255, 0, 0) (10, 10)) =
  Snake.turn_to (Snake.init (255, 0, 0) (10, 10)) 1 0.
Proof.
  apply (handle_input_priority _ (Snake.init (255, 0, 0) (10, 10)) K_RIGHT).
  - reflexivity.
  - reflexivity.
  - intros [] Hlt; simpl in Hlt; try lia. by exists false.
Defined.

(** X10: the guard of [handle_input] compares with the direction last
    accepted, not with the direction last moved in. Two calls with no
    [move] between them, the first with a sideways key and the second with
    the reverse key, leave the snake with the reverse of its direction,
    recorded on the head's cell. *)
Theorem two_inputs_reverse (s : Snake.t) (side back : Key) :
  axis_unit (Snake.dirnx s, Snake.dirny s) ->
  requested back = (- Snake.dirnx s, - Snake.dirny s) ->
  requested side <> (Snake.dirnx s, Snake.dirny s) ->
  requested side <> requested back ->
  let s2 := Snake.handle_input (pressed back) (Snake.handle_input (pressed side) s) in
  (Snake.dirnx s2, Snake.dirny s2) = (- Snake.dirnx s, - Snake.dirny s) /\
  Snake.turns s2 !! Cube.pos (Snake.head s) = Some (- Snake.dirnx s, - Snake.dirny s).
Proof.
  intros Hdir Hback Hside Hne. cbv zeta.
  destruct s as [col h r tu dx dy]. simpl in *.
  destruct Hdir as [H|[H|[H|H]]]; injection H as -> ->;
    destruct back; simpl in Hback; try discriminate Hback;
    destruct side; simpl in Hside, Hne; try congruence;
    unfold Snake.handle_input, Snake.turn_to; simpl;
    (split; [reflexivity | by rewrite lookup_insert_eq]).
Qed.

Lemma two_inputs_reverse_witness :
  let s := Snake.turn_to (Snake.init (255, 0, 0) (10, 10)) 1 0 in
  let s2 := Snake.handle_input (pressed K_LEFT) (Snake.handle_input (pressed K_UP) s) in
  (Snake.dirnx s2, Snake.dirny s2) = (-1, 0) /\
  Snake.turns s2 !! (10, 10) = Some (-1, 0).
Proof.
  apply (two_inputs_reverse (Snake.turn_to (Snake.init (255, 0, 0) (10, 10)) 1 0)
           K_UP K_LEFT).
  - left; reflexivity.
  - reflexivity.
  - discriminate.
  - discriminate.
Defined.

(** ** The collision step, whatever the body *)

Lemma collides_at_lt body k : collides_at body k -> (S k < length body)%nat.
Proof.
  intros (c & j & c' & _ & Hlt & Hj & _). apply lookup_lt_Some in Hj. lia.
Qed.

Lemma no_collision_NoDup (body : list Cube.t) :
  (forall k, ~ collides_at body k) <-> NoDup (map Cube.pos body).
Proof.
  rewrite NoDup_alt. split.
  - intros Hno i j p Hi Hj.
    rewrite list_lookup_fmap in Hi, Hj.
    destruct (body !! i) as [ci|] eqn:Eci; [|done].
    destruct (body !! j) as [cj|] eqn:Ecj; [|done].
    simpl in Hi, Hj. injection Hi as Hi. injection Hj as Hj.
    destruct (Nat.lt_trichotomy i j) as [Hlt|[Heq|Hgt]]; [|done|].
    + exfalso. apply (Hno i). exists ci, j, cj. repeat split; [done..|congruence].
    + exfalso. apply (Hno j). exists cj, i, ci. repeat split; [done..|congruence].
  - intros Hnd k (c & j & c' & Hk & Hlt & Hj & Hp).
    assert (k = j); [|lia].
    apply (Hnd k j (Cube.pos c)); rewrite list_lookup_fmap.
    + by rewrite Hk.
    + rewrite Hj. simpl. by rewrite Hp.
Qed.

Lemma collision_loop_outcome s : forall n a seen,
  (forall k, (k < a)%nat -> ~ collides_at (Snake.body s) k) ->
  (a + n = length (Snake.body s))%nat ->
  let out := Game.collision_loop s seen (seq a n) in
  (Game.snake out = s /\ Game.alerts out = [] /\
   forall k, ~ collides_at (Snake.body s) k) \/
  (Game.snake out = Snake.reset s Game.start /\
   Game.alerts out = [length (Snake.body s)] /\
   exists k, collides_at (Snake.body s) k).
Proof.
  induction n as [|n IH]; intros a seen Hbefore Hlen; cbv zeta.
  - left. repeat split. intros k Hk.
    destruct (Nat.lt_ge_cases k a) as [Hlt|Hge]; [by apply (Hbefore k)|].
    apply collides_at_lt in Hk. lia.
  - cbn [seq Game.collision_loop].
    destruct (Game.hits_later (Snake.body s) a) eqn:Ha.
    + right. repeat split. exists a. by apply hits_later_spec.
    + apply IH; [|lia]. intros k Hk.
      destruct (decide (k = a)) as [->|Hne]; [|apply Hbefore; lia].
      rewrite <- hits_later_spec. congruence.
Qed.

Lemma self_collision_outcome s :
  let out := Game.self_collision s in
  (Game.snake out = s /\ Game.alerts out = [] /\
   forall k, ~ collides_at (Snake.body s) k) \/
  (Game.snake out = Snake.reset s Game.start /\
   Game.alerts out = [length (Snake.body s)] /\
   exists k, collides_at (Snake.body s) k).
Proof.
  apply collision_loop_outcome; [intros k Hk; lia | done].
Qed.

(** X11: the collision step raises an alert exactly when two segments of
    the body stand on the same cell. Then there is one alert, its score is
    the body length, which is at least 2, and the snake is reset to the
    start position; otherwise the snake is left untouched. *)
Theorem self_collision_alert_iff (s : Snake.t) :
  let out := Game.self_collision s in
  (NoDup (map Cube.pos (Snake.body s)) ->
     Game.alerts out = [] /\ Game.snake out = s) /\
  (~ NoDup (map Cube.pos (Snake.body s)) ->
     Game.alerts out = [length (Snake.body s)] /\
     (2 <= length (Snake.body s))%nat /\
     Game.snake out = Snake.reset s Game.start).
Proof.
  cbv zeta.
  destruct (self_collision_outcome s) as [(Hs & Ha & Hno)|(Hs & Ha & k & Hk)].
  - split; [done|]. intros Hdup. destruct Hdup. by apply no_collision_NoDup.
  - split.
    + intros Hnd. by destruct (proj2 (no_collision_NoDup _) Hnd k).
    + intros _. repeat split; [done | | done].
      apply collides_at_lt in Hk. lia.
Qed.

(** X12: after the collision step no two segments of the snake stand on
    the same cell, whatever the body was before; a second pass over the
    result raises no alert and changes nothing. *)
Theorem self_collision_leaves_distinct (s : Snake.t) :
  let s' := Game.snake (Game.self_collision s) in
  NoDup (map Cube.pos (Snake.body s')) /\
  Game.alerts (Game.self_collision s') = [] /\
  Game.snake (Game.self_collision s') = s'.
Proof.
  cbv zeta.
  assert (NoDup (map Cube.pos
            (Snake.body (Game.snake (Game.self_collision s))))) as Hnd.
  { destruct (self_collision_outcome s) as [(-> & _ & Hno)|(-> & _ & _)].
    - by apply no_collision_NoDup.
    - apply NoDup_singleton. }
  split; [exact Hnd|].
  destruct (self_collision_outcome (Game.snake (Game.self_collision s)))
    as [(Hs & Ha & _)|(_ & _ & k & Hk)]; [done|].
  by destruct (proj2 (no_collision_NoDup _) Hnd k).
Qed.

(** ** Drawing *)

Lemma cube_draw_some w rows c eyes :
  rows <> 0 ->
  Cube.draw w rows c eyes =
    Some (Rect (Cube.color c) (Cube.x c * (w / rows) + 1) (Cube.y c * (w / rows) + 1)
               (w / rows - 2) (w / rows - 2) ::
          if eyes then
            [Circle (0, 0, 0) (Cube.x c * (w / rows) + (w / rows) / 2 - 3)
                    (Cube.y c * (w / rows) + 8) 3;
             Circle (0, 0, 0) (Cube.x c * (w / rows) + w / rows - 3 * 2)
                    (Cube.y c * (w / rows) + 8) 3]
          else []).
Proof.
  intros Hrows. unfold Cube.draw.
  by destruct (Z.eqb_spec rows 0).
Qed.

Lemma cube_draw_none w c eyes : Cube.draw w 0 c eyes = None.
Proof. reflexivity. Qed.

(** X13: with a cell size [w // rows] of at least 2, the square drawn for
    a cube that stands in the grid lies strictly inside the cube's own
    cell, one pixel away from each of its borders, and with it inside the
    window of width [w]. *)
Theorem square_inside_cell (w rows : Z) (c : Cube.t) (eyes : bool)
    (col : Color) (x y width height : Z) (cmds : list DrawCmd) :
  1 <= rows -> 2 <= w / rows -> in_grid rows (Cube.pos c) ->
  Cube.draw w rows c eyes = Some (Rect col x y width height :: cmds) ->
  let dis := w / rows in
  col = Cube.color c /\ width = height /\ 0 <= width /\
  (x = Cube.x c * dis + 1 /\ x + width = (Cube.x c + 1) * dis - 1) /\
  (y = Cube.y c * dis + 1 /\ y + height = (Cube.y c + 1) * dis - 1) /\
  (0 < x /\ x + width < w) /\ (0 < y /\ y + height < w).
Proof.
  intros Hrows Hdis [Hx Hy] Hdraw dis.
  rewrite cube_draw_some in Hdraw by lia.
  injection Hdraw as <- <- <- <- <- _. fold dis.
  unfold Cube.x, Cube.y.
  assert (rows * dis <= w) by (apply Z.mul_div_le; lia).
  repeat split; try lia; nia.
Qed.

Lemma square_inside_cell_witness :
  (255, 0, 0) = Cube.color (Cube.init (19, 0)) /\ 23 = 23 /\ 0 <= 23 /\
  (476 = Cube.x (Cube.init (19, 0)) * (500 / 20) + 1 /\
   476 + 23 = (Cube.x (Cube.init (19, 0)) + 1) * (500 / 20) - 1) /\
  (1 = Cube.y (Cube.init (19, 0)) * (500 / 20) + 1 /\
   1 + 23 = (Cube.y (Cube.init (19, 0)) + 1) * (500 / 20) - 1) /\
  (0 < 476 /\ 476 + 23 < 500) /\ (0 < 1 /\ 1 + 23 < 500).
Proof.
  apply (square_inside_cell 500 20 (Cube.init (19, 0)) false
           (255, 0, 0) 476 1 23 23 []).
  - lia.
  - vm_compute. discriminate.
  - unfold in_grid; simpl; lia.
  - reflexivity.
Defined.

(** X14: with a cell size [w // rows] of at least 2 pixels, the squares
    drawn for two cubes on different cells never overlap, whatever the cells
    (inside the grid or not): both squares have a width and a height that
    are not negative, and on one of the two axes one square ends before the
    other begins, with a pixel between them. *)
Theorem squares_of_distinct_cells_disjoint (w rows : Z) (c1 c2 : Cube.t)
    (e1 e2 : bool) (col1 col2 : Color) (x1 y1 w1 h1 x2 y2 w2 h2 : Z)
    (cmds1 cmds2 : list DrawCmd) :
  2 <= w / rows ->
  Cube.pos c1 <> Cube.pos c2 ->
  Cube.draw w rows c1 e1 = Some (Rect col1 x1 y1 w1 h1 :: cmds1) ->
  Cube.draw w rows c2 e2 = Some (Rect col2 x2 y2 w2 h2 :: cmds2) ->
  (0 <= w1 /\ 0 <= h1 /\ 0 <= w2 /\ 0 <= h2) /\
  (x1 + w1 < x2 \/ x2 + w2 < x1 \/ y1 + h1 < y2 \/ y2 + h2 < y1) /\
  (forall px py,
     ~ ((x1 <= px < x1 + w1 /\ y1 <= py < y1 + h1) /\
        (x2 <= px < x2 + w2 /\ y2 <= py < y2 + h2))).
Proof.
  intros Hdis Hne H1 H2.
  assert (rows <> 0) as Hrows by (intros ->; discriminate H1).
  rewrite cube_draw_some in H1, H2 by done.
  injection H1 as _ <- <- <- <- _. injection H2 as _ <- <- <- <- _.
  destruct c1 as [[i1 j1] ? ? ?], c2 as [[i2 j2] ? ? ?].
  unfold Cube.x, Cube.y. simpl in *.
  assert (i1 < i2 \/ i2 < i1 \/ j1 < j2 \/ j2 < j1) as Hcase.
  { destruct (Z.eq_dec i1 i2), (Z.eq_dec j1 j2); try lia. congruence. }
  assert (i1 * (w / rows) + 1 + (w / rows - 2) < i2 * (w / rows) + 1 \/
          i2 * (w / rows) + 1 + (w / rows - 2) < i1 * (w / rows) + 1 \/
          j1 * (w / rows) + 1 + (w / rows - 2) < j2 * (w / rows) + 1 \/
          j2 * (w / rows) + 1 + (w / rows - 2) < j1 * (w / rows) + 1) as Hsep.
  { destruct Hcase as [H|[H|[H|H]]];
      [left | right; left | do 2 right; left | do 3 right]; nia. }
  split; [lia|]. split; [exact Hsep|].
  intros px py. lia.
Qed.

Lemma squares_of_distinct_cells_disjoint_witness :
  (0 <= 23 /\ 0 <= 23 /\ 0 <= 23 /\ 0 <= 23) /\
  (1 + 23 < 26 \/ 26 + 23 < 1 \/ 1 + 23 < 1 \/ 1 + 23 < 1) /\
  (forall px py,
     ~ ((1 <= px < 1 + 23 /\ 1 <= py < 1 + 23) /\
        (26 <= px < 26 + 23 /\ 1 <= py < 1 + 23))).
Proof.
  apply (squares_of_distinct_cells_disjoint 500 20
           (Cube.init (0, 0)) (Cube.init (1, 0)) false false
           (255, 0, 0) (255, 0, 0) 1 1 23 23 26 1 23 23 [] []).
  - vm_compute. discriminate.
  - discriminate.
  - reflexivity.
  - reflexivity.
Defined.

(** X15: a segment that has left the grid is not on the screen. When
    [rows] divides [w] and the cell size [w // rows] is at least 14 pixels
    (at least 2 for a cube drawn without eyes; the game's is 25),
    everything drawn for a cube that stands outside the grid, its square and
    its two eyes, lies outside the window. *)
Theorem off_grid_cube_drawn_outside_window (w rows : Z) (c : Cube.t)
    (eyes : bool) (cmds : list DrawCmd) :
  1 <= rows -> w mod rows = 0 ->
  (if eyes then 14 else 2) <= w / rows ->
  ~ in_grid rows (Cube.pos c) ->
  Cube.draw w rows c eyes = Some cmds ->
  Forall (outside_window w) cmds.
Proof.
  intros Hrows Hmod Hdis Hout Hdraw.
  rewrite cube_draw_some in Hdraw by lia.
  injection Hdraw as <-.
  assert (w = rows * (w / rows)) as Hwd by (apply Z_div_exact_full_2; lia).
  unfold in_grid in Hout. destruct c as [[i j] ? ? ?].
  unfold Cube.x, Cube.y. simpl in *.
  assert (i < 0 \/ rows <= i \/ j < 0 \/ rows <= j) as Hcase by lia.
  set (dis := w / rows) in *.
  assert (2 <= dis) as Hdis2 by (destruct eyes; lia).
  constructor.
  - simpl. split; [lia|]. split; [lia|].
    destruct Hcase as [H|[H|[H|H]]];
      [left | right; left | do 2 right; left | do 3 right]; nia.
  - destruct eyes; [|constructor].
    assert (2 * (dis / 2) <= dis /\ 7 <= dis / 2) as [Hhalf Hseven].
    { split; [apply Z.mul_div_le; lia | apply Z.div_le_lower_bound; lia]. }
    constructor; [|constructor; [|constructor]];
      (simpl; split; [lia|]);
      (destruct Hcase as [H|[H|[H|H]]];
       [left | right; left | do 2 right; left | do 3 right]; nia).
Qed.

Lemma off_grid_cube_drawn_outside_window_witness :
  Forall (outside_window 500)
    [Rect (255, 0, 0) (-24) 226 23 23;
     Circle (0, 0, 0) (-16) 233 3; Circle (0, 0, 0) (-6) 233 3].
Proof.
  apply (off_grid_cube_drawn_outside_window 500 20 (Cube.init (-1, 9)) true).
  - lia.
  - reflexivity.
  - vm_compute. discriminate.
  - unfold in_grid; simpl; lia.
  - reflexivity.
Defined.

(** The eyes stand at fixed pixel offsets from the cell's corner, so with
    smaller cells they reach over the cell's border: with cells of 10
    pixels, the eyes of a cube one row above the grid are drawn across the
    window's top edge. *)
Lemma eyes_of_small_cells_cross_border :
  Cube.draw 200 20 (Cube.init (0, -1)) true =
    Some [Rect (255, 0, 0) 1 (-9) 8 8;
          Circle (0, 0, 0) 2 (-2) 3; Circle (0, 0, 0) 4 (-2) 3].
Proof. reflexivity. Qed.

Lemma draw_from_rest w rows cs : forall i,
  rows <> 0 ->
  Snake.draw_from w rows (S i) cs = Some (map (square w rows) cs).
Proof.
  induction cs as [|c cs IH]; intros i Hrows; [done|].
  cbn [Snake.draw_from map]. rewrite cube_draw_some by done.
  cbn [Nat.eqb]. by rewrite IH.
Qed.

Lemma snake_draw_some w rows s :
  rows <> 0 ->
  Snake.draw w rows s =
    Some (square w rows (Snake.head s) :: eyes_of w rows (Snake.head s) ++
          map (square w rows) (Snake.rest s)).
Proof.
  intros Hrows. unfold Snake.draw, Snake.body. cbn [Snake.draw_from].
  rewrite cube_draw_some by done. cbn [Nat.eqb].
  by rewrite draw_from_rest.
Qed.

(** X16: [Snake.draw] raises when [rows] is 0 and nothing is drawn;
    otherwise it paints one square per segment, in body order, and two
    eyes, right after the head's square and on no other segment:
    [len(body) + 2] commands in all. *)
Theorem snake_draw_eyes_on_head_only (w rows : Z) (s : Snake.t) :
  Snake.draw w 0 s = None /\
  (rows <> 0 ->
   Snake.draw w rows s =
     Some (square w rows (Snake.head s) :: eyes_of w rows (Snake.head s) ++
           map (square w rows) (Snake.rest s)) /\
   exists cmds, Snake.draw w rows s = Some cmds /\
                length cmds = (length (Snake.body s) + 2)%nat).
Proof.
  split; [reflexivity|]. intros Hrows.
  assert (Snake.draw w rows s =
     Some (square w rows (Snake.head s) :: eyes_of w rows (Snake.head s) ++
           map (square w rows) (Snake.rest s))) as Hd.
  { by apply snake_draw_some. }
  split; [exact Hd|]. eexists. split; [exact Hd|].
  unfold Snake.body. simpl. rewrite length_map. lia.
Qed.

Lemma grid_loop_spec n : forall sz x y,
  Utils.grid_loop n sz x y = (x + Z.of_nat n * sz, y + Z.of_nat n * sz).
Proof.
  induction n as [|n IH]; intros sz x y.
  - simpl. f_equal; lia.
  - cbn [Utils.grid_loop]. rewrite IH. f_equal; lia.
Qed.

Lemma draw_grid_some w rows :
  rows <> 0 ->
  Utils.draw_grid w rows =
    Some ([], (Z.max rows 0 * (w / rows), Z.max rows 0 * (w / rows))).
Proof.
  intros Hrows. unfold Utils.draw_grid. destruct (Z.eqb_spec rows 0); [done|].
  rewrite grid_loop_spec.
  replace (Z.of_nat (Z.to_nat rows)) with (Z.max rows 0) by lia.
  by rewrite !Z.add_0_l.
Qed.

(** X17: [draw_grid] draws nothing. It raises for [rows = 0]; for every
    other [rows] it returns having only advanced its two counters
    [max(rows, 0)] times by [w // rows]. The counters end on [w] exactly
    when [rows] is positive and divides [w], or [rows] is negative (the
    loop does not run) and [w] is 0. *)
Theorem draw_grid_draws_nothing (w rows : Z) :
  Utils.draw_grid w 0 = None /\
  (rows <> 0 ->
   Utils.draw_grid w rows =
     Some ([], (Z.max rows 0 * (w / rows), Z.max rows 0 * (w / rows))) /\
   (Utils.draw_grid w rows = Some ([], (w, w)) <->
    (1 <= rows /\ w mod rows = 0) \/ (rows < 0 /\ w = 0))).
Proof.
  split; [reflexivity|]. intros Hrows.
  assert (Utils.draw_grid w rows =
     Some ([], (Z.max rows 0 * (w / rows), Z.max rows 0 * (w / rows)))) as Hg.
  { by apply draw_grid_some. }
  split; [exact Hg|]. rewrite Hg. split.
  - intros [= Hw _].
    destruct (Z.max_spec rows 0) as [[Hlt Hm]|[Hle Hm]]; rewrite Hm in Hw.
    + right. lia.
    + left. split; [lia|].
      rewrite Z.mod_eq by done. lia.
  - intros [[Hpos Hmod]|[Hneg ->]].
    + rewrite Z.max_l by lia.
      by rewrite <- (Z_div_exact_full_2 w rows) by lia.
    + by rewrite Z.max_r by lia.
Qed.

(** X18: [redraw_window] raises exactly when one of the two row counts,
    the class attribute used by the cubes or the argument used by the
    grid, is 0. Otherwise the frame is: fill with black, the head's square
    and eyes, one square per further segment, the snack's square without
    eyes, and the display update; the grid adds no command, so a frame has
    [len(body) + 5] commands. *)
Theorem redraw_window_frame (cw crows : Z) (snake : Snake.t) (snack : Cube.t)
    (width rows : Z) :
  (Utils.redraw_window cw crows snake snack width rows = None <->
   crows = 0 \/ rows = 0) /\
  (crows <> 0 -> rows <> 0 ->
   Utils.redraw_window cw crows snake snack width rows =
     Some (Fill (0, 0, 0) :: square cw crows (Snake.head snake) ::
           eyes_of cw crows (Snake.head snake) ++
           map (square cw crows) (Snake.rest snake) ++
           [square cw crows snack; Update]) /\
   exists frame, Utils.redraw_window cw crows snake snack width rows = Some frame /\
                 length frame = (length (Snake.body snake) + 5)%nat).
Proof.
  assert (crows <> 0 -> rows <> 0 ->
   Utils.redraw_window cw crows snake snack width rows =
     Some (Fill (0, 0, 0) :: square cw crows (Snake.head snake) ::
           eyes_of cw crows (Snake.head snake) ++
           map (square cw crows) (Snake.rest snake) ++
           [square cw crows snack; Update])) as Hframe.
  { intros Hc Hr. unfold Utils.redraw_window.
    rewrite snake_draw_some, cube_draw_some, draw_grid_some by done.
    reflexivity. }
  split.
  - split.
    + intros Hnone. destruct (Z.eq_dec crows 0) as [|Hc]; [by left|].
      destruct (Z.eq_dec rows 0) as [|Hr]; [by right|].
      rewrite Hframe in Hnone by done. discriminate.
    + intros [-> | ->]; unfold Utils.redraw_window.
      * reflexivity.
      * destruct (Snake.draw cw crows snake); [|done].
        by destruct (Cube.draw cw crows snack false).
  - intros Hc Hr. split; [by apply Hframe|].
    eexists. split; [by apply Hframe|].
    unfold Snake.body. simpl. rewrite length_app, length_map. simpl. lia.
Qed.

(** ** One iteration of the game loop *)

Lemma length_set_last_dir r : forall h dx dy,
  length (snd (Snake.set_last_dir h r dx dy)) = length r.
Proof.
  induction r as [|c r IH]; intros h dx dy; [done|].
  cbn [Snake.set_last_dir]. specialize (IH c dx dy).
  destruct (Snake.set_last_dir c r dx dy) as [c' r']. simpl in *. by rewrite IH.
Qed.

Lemma length_body_add_cube s :
  length (Snake.body (Snake.add_cube s)) = length (Snake.body s) \/
  length (Snake.body (Snake.add_cube s)) = S (length (Snake.body s)).
Proof.
  unfold Snake.add_cube, Snake.body.
  set (r1 := match Snake.new_cube (Snake.tail s) with
             | Some c => Snake.rest s ++ [c]
             | None => Snake.rest s
             end).
  pose proof (length_set_last_dir r1 (Snake.head s)
                (Cube.dirnx (Snake.tail s)) (Cube.dirny (Snake.tail s))) as Hl.
  destruct (Snake.set_last_dir (Snake.head s) r1 _ _) as [h r2].
  simpl in *. rewrite Hl. subst r1.
  destruct (Snake.new_cube (Snake.tail s)); [right | left].
  - rewrite length_app. simpl. lia.
  - done.
Qed.

Lemma body_handle_input keys s :
  Snake.body (Snake.handle_input keys s) = Snake.body s.
Proof.
  destruct (handle_input_cases keys s) as [->|(k & _ & _ & ->)]; done.
Qed.

Lemma random_snack_returned fuel rows snake draws p :
  Utils.random_snack fuel rows snake draws = Utils.Returned p ->
  1 <= rows /\ exists j, p = Utils.drawn draws j /\ ~ occupied (Snake.body snake) p.
Proof.
  intros Hret.
  assert (1 <= rows) as Hrows.
  { destruct (Z.le_gt_cases rows 0) as [Hle|]; [|lia].
    destruct fuel as [|fuel]; [discriminate Hret|].
    rewrite random_snack_refused in Hret by done. discriminate. }
  split; [done|].
  by apply (random_snack_from_some rows _ draws Hrows fuel 0).
Qed.

Section LoopBody.
Variables (cw crows width rows : Z) (fuel : nat).

Lemma loop_body_stepped inp st st' al frame :
  Main.loop_body cw crows width rows fuel inp st = Main.Stepped st' al frame ->
  exists grown snack1,
    ((Cube.pos (Snake.head (moved crows inp st)) <> Cube.pos (Main.snack st) /\
      grown = moved crows inp st /\ snack1 = Main.snack st) \/
     (Cube.pos (Snake.head (moved crows inp st)) = Cube.pos (Main.snack st) /\
      grown = Snake.add_cube (moved crows inp st) /\
      exists p, Utils.random_snack fuel rows grown (Main.draws inp) = Utils.Returned p /\
                snack1 = Cube.init_color p (0, 255, 0))) /\
    st' = {| Main.snake := Game.snake (Game.self_collision grown);
             Main.snack := snack1;
             Main.running := Main.poll_quit (Main.events inp) (Main.running st) |} /\
    al = Game.alerts (Game.self_collision grown) /\
    Utils.redraw_window cw crows (Game.snake (Game.self_collision grown)) snack1
                        width rows = Some frame.
Proof.
  unfold Main.loop_body. fold (moved crows inp st).
  destruct (bool_decide_reflect
              (Cube.pos (Snake.head (moved crows inp st)) = Cube.pos (Main.snack st)))
    as [Heq|Hne].
  - destruct (Utils.random_snack fuel rows (Snake.add_cube (moved crows inp st))
                (Main.draws inp)) as [p| |] eqn:Hr; try discriminate.
    destruct (Utils.redraw_window _ _ _ _ _ _) as [fr|] eqn:Hf; [|discriminate].
    intros [= <- <- <-].
    exists (Snake.add_cube (moved crows inp st)), (Cube.init_color p (0, 255, 0)).
    split; [right; eauto|]. done.
  - destruct (Utils.redraw_window _ _ _ _ _ _) as [fr|] eqn:Hf; [|discriminate].
    intros [= <- <- <-].
    exists (moved crows inp st), (Main.snack st). split; [left; eauto|]. done.
Qed.

End LoopBody.

Lemma length_body_moved crows inp st :
  length (Snake.body (moved crows inp st)) = length (Snake.body (Main.snake st)).
Proof. unfold moved. by rewrite length_body_move, body_handle_input. Qed.

(** X19: an iteration of the game loop that runs to its end leaves a snake
    whose segments stand on pairwise distinct cells and raises at most one
    alert. Without an alert the body has kept its length or grown by one
    segment; with an alert the snake has one segment again and the score
    shown is the length the body had reached, at least 2 and at most one
    more than before the iteration. *)
Theorem loop_body_lengths (cw crows width rows : Z) (fuel : nat)
    (inp : Main.input) (st st' : Main.state) (al : list nat) (frame : list DrawCmd) :
  Main.loop_body cw crows width rows fuel inp st = Main.Stepped st' al frame ->
  let len := length (Snake.body (Main.snake st)) in
  let len' := length (Snake.body (Main.snake st')) in
  NoDup (map Cube.pos (Snake.body (Main.snake st'))) /\
  ((al = [] /\ (len' = len \/ len' = S len)) \/
   (exists score, al = [score] /\ len' = 1%nat /\
                  (2 <= score)%nat /\ (score = len \/ score = S len))).
Proof.
  intros Hstep. cbv zeta.
  destruct (loop_body_stepped _ _ _ _ _ _ _ _ _ _ Hstep)
    as (grown & snack1 & Hcase & -> & -> & _).
  cbn [Main.snake].
  assert (length (Snake.body grown) = length (Snake.body (Main.snake st)) \/
          length (Snake.body grown) = S (length (Snake.body (Main.snake st))))
    as Hgrown.
  { destruct Hcase as [(_ & -> & _)|(_ & -> & _)].
    - left. apply length_body_moved.
    - rewrite <- (length_body_moved crows inp st). apply length_body_add_cube. }
  split.
  - destruct (self_collision_outcome grown) as [(-> & _ & Hno)|(-> & _ & _)].
    + by apply no_collision_NoDup.
    + apply NoDup_singleton.
  - destruct (self_collision_outcome grown) as [(-> & -> & _)|(-> & -> & k & Hk)].
    + left. split; [done|]. lia.
    + right. exists (length (Snake.body grown)). repeat split; [|lia].
      apply collides_at_lt in Hk. lia.
Qed.

(** X20: in an iteration that runs to its end the snack is replaced only
    when the head has moved onto it. The new snack is then green, and,
    [randbelow] keeping to its contract, it lies in the grid and under no
    segment of the snake as grown in this iteration; when no alert is
    raised, that is the snake the iteration ends with. *)
Theorem loop_body_snack (cw crows width rows : Z) (fuel : nat)
    (inp : Main.input) (st st' : Main.state) (al : list nat) (frame : list DrawCmd) :
  Utils.draws_below rows (Main.draws inp) ->
  Main.loop_body cw crows width rows fuel inp st = Main.Stepped st' al frame ->
  (Cube.pos (Snake.head (moved crows inp st)) <> Cube.pos (Main.snack st) ->
     Main.snack st' = Main.snack st) /\
  (Cube.pos (Snake.head (moved crows inp st)) = Cube.pos (Main.snack st) ->
     Cube.color (Main.snack st') = (0, 255, 0) /\
     in_grid rows (Cube.pos (Main.snack st')) /\
     (forall c, c ∈ Snake.body (Snake.add_cube (moved crows inp st)) ->
                Cube.pos c <> Cube.pos (Main.snack st')) /\
     (al = [] ->
      forall c, c ∈ Snake.body (Main.snake st') ->
                Cube.pos c <> Cube.pos (Main.snack st'))).
Proof.
  intros Hdraws Hstep.
  destruct (loop_body_stepped _ _ _ _ _ _ _ _ _ _ Hstep)
    as (grown & snack1 & Hcase & -> & -> & _).
  cbn [Main.snake Main.snack].
  destruct Hcase as [(Hne & -> & ->)|(Heq & -> & p & Hret & ->)].
  - split; [done|]. intros Heq. by destruct Hne.
  - split; [intros Hne; by destruct Hne|]. intros _.
    apply random_snack_returned in Hret as (Hrows & j & -> & Hfree).
    assert (forall c, c ∈ Snake.body (Snake.add_cube (moved crows inp st)) ->
              Cube.pos c <> Utils.drawn (Main.draws inp) j) as Hoff.
    { intros c Hc Hp. apply Hfree. by exists c. }
    repeat split.
    + apply Hdraws.
    + apply Hdraws.
    + apply Hdraws.
    + apply Hdraws.
    + exact Hoff.
    + intros Hal.
      destruct (self_collision_outcome (Snake.add_cube (moved crows inp st)))
        as [(-> & _ & _)|(_ & Ha & _)]; [exact Hoff|].
      rewrite Ha in Hal. discriminate.
Qed.

Lemma demo_iteration :
  Main.loop_body 500 20 500 20 5 demo_input demo_state =
    Main.Stepped demo_after [] demo_frame.
Proof. vm_compute. reflexivity. Qed.

Lemma loop_body_lengths_witness :
  NoDup (map Cube.pos (Snake.body (Main.snake demo_after))) /\
  (([] = @nil nat /\
    (length (Snake.body (Main.snake demo_after)) =
       length (Snake.body (Main.snake demo_state)) \/
     length (Snake.body (Main.snake demo_after)) =
       S (length (Snake.body (Main.snake demo_state))))) \/
   (exists score, [] = [score] /\
      length (Snake.body (Main.snake demo_after)) = 1%nat /\
      (2 <= score)%nat /\
      (score = length (Snake.body (Main.snake demo_state)) \/
       score = S (length (Snake.body (Main.snake demo_state)))))).
Proof.
  apply (loop_body_lengths 500 20 500 20 5 demo_input demo_state demo_after
           [] demo_frame).
  exact demo_iteration.
Defined.

Lemma threes_below : Utils.draws_below 20 (fun _ => 3).
Proof. intros k. lia. Qed.

Lemma loop_body_snack_witness :
  (Cube.pos (Snake.head (moved 20 demo_input demo_state)) <>
     Cube.pos (Main.snack demo_state) ->
     Main.snack demo_after = Main.snack demo_state) /\
  (Cube.pos (Snake.head (moved 20 demo_input demo_state)) =
     Cube.pos (Main.snack demo_state) ->
     Cube.color (Main.snack demo_after) = (0, 255, 0) /\
     in_grid 20 (Cube.pos (Main.snack demo_after)) /\
     (forall c, c ∈ Snake.body (Snake.add_cube (moved 20 demo_input demo_state)) ->
                Cube.pos c <> Cube.pos (Main.snack demo_after)) /\
     ([] = @nil nat ->
      forall c, c ∈ Snake.body (Main.snake demo_after) ->
                Cube.pos c <> Cube.pos (Main.snack demo_after))).
Proof.
  apply (loop_body_snack 500 20 500 20 5 demo_input demo_state demo_after
           [] demo_frame).
  - exact threes_below.
  - exact demo_iteration.
Defined.

(** ** Leaving the loop *)

Lemma poll_quit_false evs : Main.poll_quit evs false = false.
Proof.
  unfold Main.poll_quit. induction evs as [|e evs IH]; [done|].
  cbn [fold_left]. by destruct e.
Qed.

Lemma poll_quit_spec evs : forall r,
  (Main.QUIT ∈ evs -> Main.poll_quit evs r = false) /\
  (Main.QUIT ∉ evs -> Main.poll_quit evs r = r).
Proof.
  unfold Main.poll_quit. induction evs as [|e evs IH]; intros r.
  - split; [|done]. intros H. by apply elem_of_nil in H.
  - cbn [fold_left]. destruct e.
    + split; [|intros H; destruct H; left].
      intros _. apply poll_quit_false.
    + destruct (IH r) as [Hin Hout]. split.
      * intros H. apply elem_of_cons in H as [?|?]; [discriminate | auto].
      * intros H. apply Hout. intros Hin'. apply H. by right.
Qed.

Section MainLoop.
Variables (cw crows width rows : Z) (fuel : nat).

Lemma main_loop_stopped inputs st alerts frames :
  Main.running st = false ->
  Main.main_loop cw crows width rows fuel inputs st alerts frames =
    Main.Left st alerts frames.
Proof. intros H. destruct inputs; simpl; by rewrite H. Qed.

Lemma loop_body_running inp st st' al frame :
  Main.loop_body cw crows width rows fuel inp st = Main.Stepped st' al frame ->
  Main.running st' = Main.poll_quit (Main.events inp) (Main.running st).
Proof.
  intros Hstep.
  by destruct (loop_body_stepped _ _ _ _ _ _ _ _ _ _ Hstep)
    as (grown & snack1 & _ & -> & _).
Qed.

(** The loop over [pre ++ l] is the loop over [pre], continued over [l]
    when [pre] is used up with the loop still running. *)
Lemma main_loop_app pre : forall l st alerts frames,
  Main.main_loop cw crows width rows fuel (pre ++ l) st alerts frames =
    match Main.main_loop cw crows width rows fuel pre st alerts frames with
    | Main.Pending st' al' fr' =>
      Main.main_loop cw crows width rows fuel l st' al' fr'
    | r => r
    end.
Proof.
  induction pre as [|i pre IH]; intros l st alerts frames.
  - cbn [app Main.main_loop].
    destruct (Main.running st) eqn:Hrun; [done|].
    by apply main_loop_stopped.
  - cbn [app Main.main_loop].
    destruct (Main.running st); [|done].
    destruct (Main.loop_body cw crows width rows fuel i st); [apply IH|done..].
Qed.

Lemma main_loop_pending pre : forall st alerts frames st' al' fr',
  Main.main_loop cw crows width rows fuel pre st alerts frames =
    Main.Pending st' al' fr' ->
  Main.running st' = true /\
  length fr' = (length frames + length pre)%nat.
Proof.
  induction pre as [|i pre IH]; intros st alerts frames st' al' fr';
    cbn [Main.main_loop]; destruct (Main.running st) eqn:Hrun; try discriminate.
  - intros [= <- _ <-]. split; [done|]. simpl. lia.
  - destruct (Main.loop_body cw crows width rows fuel i st); try discriminate.
    intros H. apply IH in H as [? ->]. split; [done|].
    rewrite length_app. simpl. lia.
Qed.

Lemma main_loop_no_quit pre : forall st alerts frames st' al' fr',
  Main.running st = true ->
  (forall i, i ∈ pre -> Main.QUIT ∉ Main.events i) ->
  Main.main_loop cw crows width rows fuel pre st alerts frames <>
    Main.Left st' al' fr'.
Proof.
  induction pre as [|i pre IH]; intros st alerts frames st' al' fr' Hrun Hpre;
    cbn [Main.main_loop]; rewrite Hrun; [discriminate|].
  destruct (Main.loop_body cw crows width rows fuel i st)
    as [st1 al fr| |] eqn:Hstep; [|discriminate..].
  pose proof (loop_body_running _ _ _ _ _ Hstep) as Hr1.
  rewrite (proj2 (poll_quit_spec _ _) (Hpre i ltac:(left))), Hrun in Hr1.
  apply IH; [done|]. intros j Hj. apply Hpre. by right.
Qed.

(** One iteration with a QUIT event, from a state in which the loop runs. *)
Lemma main_loop_quit_iteration inp post st alerts frames :
  Main.running st = true ->
  Main.QUIT ∈ Main.events inp ->
  Main.main_loop cw crows width rows fuel (inp :: post) st alerts frames =
    match Main.loop_body cw crows width rows fuel inp st with
    | Main.Stepped st' al frame => Main.Left st' (alerts ++ al) (frames ++ [frame])
    | Main.StepRaised al => Main.RunRaised (alerts ++ al) frames
    | Main.StepDiverged => Main.RunDiverged alerts frames
    end.
Proof.
  intros Hrun Hq. cbn [Main.main_loop]. rewrite Hrun.
  destruct (Main.loop_body cw crows width rows fuel inp st)
    as [st1 al fr| |] eqn:Hstep; [|done..].
  pose proof (loop_body_running _ _ _ _ _ Hstep) as Hr1.
  rewrite (proj1 (poll_quit_spec _ _) Hq) in Hr1.
  by apply main_loop_stopped.
Qed.

End MainLoop.

(** X21: the iteration in which a QUIT event arrives is carried out to its
    end before the loop is left. With the loop running, no QUIT in the
    first n iterations and one in the next: the inputs after it are never
    read, and the run does not wait for more input. The loop is left
    exactly when the first n iterations leave the loop running and the
    body of the loop, run on the QUIT iteration's input from the state they
    reach, comes to its end; the run then ends in the state, with the
    alerts and with the frame of that iteration after those of the first n.
    In that iteration the keys are handled and the snake is moved: the
    final snake is the snake of the state before, after [handle_input] with
    the iteration's keys and [move] (and [add_cube] when the head then
    stands on the snack), as the collision test leaves it; the last frame
    is [redraw_window] of the final snake and snack; [running] is false and
    n + 1 frames have been drawn. *)
Theorem quit_iteration_runs_to_its_end (cw crows width rows : Z) (fuel : nat)
    (pre : list Main.input) (inp : Main.input) (post : list Main.input)
    (st : Main.state) :
  Main.running st = true ->
  (forall i, i ∈ pre -> Main.QUIT ∉ Main.events i) ->
  Main.QUIT ∈ Main.events inp ->
  Main.main_loop cw crows width rows fuel (pre ++ inp :: post) st [] [] =
    Main.main_loop cw crows width rows fuel (pre ++ [inp]) st [] [] /\
  (forall st' al fr,
     Main.main_loop cw crows width rows fuel (pre ++ [inp]) st [] []
       <> Main.Pending st' al fr) /\
  (forall st' al fr,
     Main.main_loop cw crows width rows fuel (pre ++ [inp]) st [] []
       = Main.Left st' al fr <->
     exists st_n al_n fr_n al_q frame,
       Main.main_loop cw crows width rows fuel pre st [] [] =
         Main.Pending st_n al_n fr_n /\
       Main.loop_body cw crows width rows fuel inp st_n =
         Main.Stepped st' al_q frame /\
       al = al_n ++ al_q /\ fr = fr_n ++ [frame]) /\
  (forall st' al fr,
     Main.main_loop cw crows width rows fuel (pre ++ [inp]) st [] []
       = Main.Left st' al fr ->
     Main.running st' = false /\ length fr = S (length pre) /\
     exists st_n al_n fr_n frame,
       Main.main_loop cw crows width rows fuel pre st [] [] =
         Main.Pending st_n al_n fr_n /\
       ((Cube.pos (Snake.head (moved crows inp st_n)) <> Cube.pos (Main.snack st_n) /\
         Main.snake st' = Game.snake (Game.self_collision (moved crows inp st_n)) /\
         Main.snack st' = Main.snack st_n) \/
        (Cube.pos (Snake.head (moved crows inp st_n)) = Cube.pos (Main.snack st_n) /\
         Main.snake st' =
           Game.snake (Game.self_collision (Snake.add_cube (moved crows inp st_n))))) /\
       fr = fr_n ++ [frame] /\
       Utils.redraw_window cw crows (Main.snake st') (Main.snack st') width rows =
         Some frame).
Proof.
  intros Hrun Hpre Hq.
  assert (forall post' st' al fr,
     Main.main_loop cw crows width rows fuel (pre ++ inp :: post') st [] []
       = Main.Left st' al fr <->
     exists st_n al_n fr_n al_q frame,
       Main.main_loop cw crows width rows fuel pre st [] [] =
         Main.Pending st_n al_n fr_n /\
       Main.loop_body cw crows width rows fuel inp st_n =
         Main.Stepped st' al_q frame /\
       al = al_n ++ al_q /\ fr = fr_n ++ [frame]) as Hchar.
  { intros post' st' al fr. rewrite main_loop_app.
    destruct (Main.main_loop cw crows width rows fuel pre st [] [])
      as [st0 al0 fr0|al0 fr0|al0 fr0|st_n al_n fr_n] eqn:Hp.
    - by destruct (main_loop_no_quit cw crows width rows fuel pre st [] []
                     st0 al0 fr0 Hrun Hpre).
    - split; [discriminate|]. by intros (? & ? & ? & ? & ? & ? & _).
    - split; [discriminate|]. by intros (? & ? & ? & ? & ? & ? & _).
    - destruct (main_loop_pending cw crows width rows fuel pre st [] []
                 st_n al_n fr_n Hp) as [Hrn _].
      rewrite main_loop_quit_iteration by done. split.
      + destruct (Main.loop_body cw crows width rows fuel inp st_n)
          as [st1 al1 fr1| |] eqn:Hstep; try discriminate.
        intros [= <- <- <-]. by exists st_n, al_n, fr_n, al1, fr1.
      + intros (st_n' & al_n' & fr_n' & al_q & frame & [= <- <- <-] & Hstep & -> & ->).
        by rewrite Hstep. }
  split; [|split; [|split]].
  - rewrite !main_loop_app.
    destruct (Main.main_loop cw crows width rows fuel pre st [] [])
      as [| | |st_n al_n fr_n] eqn:Hp; try done.
    destruct (main_loop_pending cw crows width rows fuel pre st [] []
                 st_n al_n fr_n Hp) as [Hrn _].
    by rewrite !main_loop_quit_iteration by done.
  - intros st' al fr. rewrite main_loop_app.
    destruct (Main.main_loop cw crows width rows fuel pre st [] [])
      as [| | |st_n al_n fr_n] eqn:Hp; try discriminate.
    destruct (main_loop_pending cw crows width rows fuel pre st [] []
                 st_n al_n fr_n Hp) as [Hrn _].
    rewrite main_loop_quit_iteration by done.
    by destruct (Main.loop_body cw crows width rows fuel inp st_n).
  - apply Hchar.
  - intros st' al fr Hl.
    apply Hchar in Hl as (st_n & al_n & fr_n & al_q & frame & Hp & Hstep & -> & ->).
    destruct (main_loop_pending cw crows width rows fuel pre st [] []
                 st_n al_n fr_n Hp) as [Hrn Hlen].
    pose proof (loop_body_running _ _ _ _ _ _ _ _ _ _ Hstep) as Hr1.
    rewrite (proj1 (poll_quit_spec _ _) Hq) in Hr1.
    split; [done|]. split; [rewrite length_app, Hlen; simpl; lia|].
    exists st_n, al_n, fr_n, frame. split; [done|].
    destruct (loop_body_stepped _ _ _ _ _ _ _ _ _ _ Hstep)
      as (grown & snack1 & Hcase & -> & _ & Hframe).
    cbn [Main.snake Main.snack].
    split; [|done].
    destruct Hcase as [(Hne & -> & ->)|(Heq & -> & _)]; [left | right]; done.
Qed.

Lemma quit_iteration_runs_to_its_end_witness :
  Main.main_loop 500 20 500 20 5 ([demo_input] ++ quit_input :: [demo_input])
                 demo_state [] [] =
    Main.main_loop 500 20 500 20 5 ([demo_input] ++ [quit_input]) demo_state [] [] /\
  (forall st' al fr,
     Main.main_loop 500 20 500 20 5 ([demo_input] ++ [quit_input]) demo_state [] []
       <> Main.Pending st' al fr) /\
  (forall st' al fr,
     Main.main_loop 500 20 500 20 5 ([demo_input] ++ [quit_input]) demo_state [] []
       = Main.Left st' al fr <->
     exists st_n al_n fr_n al_q frame,
       Main.main_loop 500 20 500 20 5 [demo_input] demo_state [] [] =
         Main.Pending st_n al_n fr_n /\
       Main.loop_body 500 20 500 20 5 quit_input st_n =
         Main.Stepped st' al_q frame /\
       al = al_n ++ al_q /\ fr = fr_n ++ [frame]) /\
  (forall st' al fr,
     Main.main_loop 500 20 500 20 5 ([demo_input] ++ [quit_input]) demo_state [] []
       = Main.Left st' al fr ->
     Main.running st' = false /\ length fr = 2%nat /\
     exists st_n al_n fr_n frame,
       Main.main_loop 500 20 500 20 5 [demo_input] demo_state [] [] =
         Main.Pending st_n al_n fr_n /\
       ((Cube.pos (Snake.head (moved 20 quit_input st_n)) <> Cube.pos (Main.snack st_n) /\
         Main.snake st' = Game.snake (Game.self_collision (moved 20 quit_input st_n)) /\
         Main.snack st' = Main.snack st_n) \/
        (Cube.pos (Snake.head (moved 20 quit_input st_n)) = Cube.pos (Main.snack st_n) /\
         Main.snake st' =
           Game.snake (Game.self_collision (Snake.add_cube (moved 20 quit_input st_n))))) /\
       fr = fr_n ++ [frame] /\
       Utils.redraw_window 500 20 (Main.snake st') (Main.snack st') 500 20 =
         Some frame).
Proof.
  apply (quit_iteration_runs_to_its_end 500 20 500 20 5
           [demo_input] quit_input [demo_input] demo_state).
  - reflexivity.
  - intros i Hi. apply list_elem_of_singleton in Hi. subst i. simpl.
    intros H. by apply elem_of_nil in H.
  - right. left.
Defined.

(** The run of that witness: the fresh snake eats the snack in the first
    iteration; in the second, in which the window is closed, the two
    segments still move one cell to the right and the frame shows them
    there. *)
Lemma quit_iteration_demo :
  Main.main_loop 500 20 500 20 5 [demo_input; quit_input; demo_input]
                 demo_state [] [] =
    Main.Left
      {| Main.snake :=
           {| Snake.color := (255, 0, 0);
              Snake.head := Cube.mk (12, 10) 1 0 (255, 0, 0);
              Snake.rest := [Cube.mk (11, 10) 1 0 (255, 0, 0)];
              Snake.turns := ∅; Snake.dirnx := 0; Snake.dirny := 1 |};
         Main.snack := Cube.init_color (3, 3) (0, 255, 0);
         Main.running := false |}
      []
      [demo_frame;
       [Fill (0, 0, 0);
        Rect (255, 0, 0) 301 251 23 23;
        Circle (0, 0, 0) 309 258 3; Circle (0, 0, 0) 319 258 3;
        Rect (255, 0, 0) 276 251 23 23;
        Rect (0, 255, 0) 76 76 23 23;
        Update]].
Proof. vm_compute. reflexivity. Qed.
